(** * A boundary-tag allocator: shallow embedding of [myMalloc.c]

    The allocator keeps all of its metadata in band: every block starts
    with a header, free blocks are threaded through doubly linked
    circular lists whose heads are static sentinels, and chunks obtained
    with [sbrk] are bracketed by fenceposts.  The embedding keeps this
    representation: memory is a byte-addressed finite map, headers are
    read and written with 64-bit little-endian loads and stores, and the
    C functions become computations in a state monad whose outcomes
    record normal return, process termination and memory faults. *)

From Stdlib Require Import ZArith List String Ascii Lia Bool ZifyBool.
From stdpp Require Import base gmap.
Import ListNotations.
Local Open Scope Z_scope.

(** ** Machine integers *)

Module Word.

Definition modulus64 : Z := 2 ^ 64.
Definition modulus32 : Z := 2 ^ 32.

(** Conversion to [size_t] (and to pointers): reduction modulo 2^64. *)
Definition u64 (x : Z) : Z := x mod modulus64.

(** Conversion to [int]: reduction modulo 2^32 into the signed range. *)
Definition to_int (x : Z) : Z := (x + 2 ^ 31) mod modulus32 - 2 ^ 31.

(** [a % b] on [int]: C truncates the quotient toward zero. *)
Definition int_rem (a b : Z) : Z := Z.rem a b.

End Word.

(** ** Constants of [myMalloc.h] *)

(** Modelled from the spec: [myMalloc.h] is not among the sources.  The
    spec fixes the header length [H] at 16 bytes, the full header
    (with the two list links) at [H + 16] bytes, 59 size classes and an
    arena of 4096 bytes. *)
Definition ALLOC_HEADER_SIZE : Z := 16.
Definition sizeof_header : Z := 32.
Definition sizeof_ptr : Z := 8.
Definition N_LISTS : Z := 59.
Definition ARENA_SIZE : Z := 4096.

(** Modelled from the spec: the registry capacity [MAX_OS_CHUNKS] is
    named by the spec without a value; the capacity used here is 1024.
    Only [insert_os_chunk] reads the constant. *)
Definition MAX_OS_CHUNKS : Z := 1024.

(** Modelled from the spec: the three block states.  The source compares
    states against the casts [(enum state) 0], [1] and [2] in the places
    where the spec speaks of free, allocated and fencepost blocks. *)
Definition UNALLOCATED : Z := 0.
Definition ALLOCATED : Z := 1.
Definition FENCEPOST : Z := 2.

Definition NULL : Z := 0.

(** ** Byte-addressed memory *)

Module Mem.

(** One entry per byte that was ever written; a byte that was never
    written reads as zero, as fresh [sbrk] memory does. *)
Definition byte_at (m : gmap Z Z) (a : Z) : Z :=
  match m !! a with Some b => b | None => 0 end.

Fixpoint load_bytes (m : gmap Z Z) (a : Z) (n : nat) : list Z :=
  match n with
  | O => []
  | S k => byte_at m a :: load_bytes m (a + 1) k
  end.

Fixpoint store_bytes (m : gmap Z Z) (a : Z) (bs : list Z) : gmap Z Z :=
  match bs with
  | [] => m
  | b :: rest => store_bytes (<[a := b]> m) (a + 1) rest
  end.

(** Little-endian encoding of the low [n] bytes of a value. *)
Fixpoint encode (n : nat) (v : Z) : list Z :=
  match n with
  | O => []
  | S k => v mod 256 :: encode k (v / 256)
  end.

Fixpoint decode (bs : list Z) : Z :=
  match bs with
  | [] => 0
  | b :: rest => b + 256 * decode rest
  end.

Definition load64 (m : gmap Z Z) (a : Z) : Z := decode (load_bytes m a 8).
Definition store64 (m : gmap Z Z) (a v : Z) : gmap Z Z :=
  store_bytes m a (encode 8 v).

End Mem.

(** ** Allocator state and outcomes *)

(** The process-wide state of the C file: the heap bytes, the program
    break, the globals [lastFencePost], [base], [osChunkList] and
    [numOsChunks], and the two output streams.  [sentinels] is the
    address of [freelistSentinels[0]] and [heap_start] the program break
    at process start; both are fixed by the loader. *)
Record allocator : Type := mkAllocator {
  mem : gmap Z Z;
  sentinels : Z;
  heap_start : Z;
  brk : Z;
  lastFencePost : Z;
  base : Z;
  osChunkList : gmap Z Z;
  numOsChunks : Z;
  stdout : list string;
  stderr : list string
}.

Definition set_mem (m : gmap Z Z) (s : allocator) : allocator :=
  mkAllocator m (sentinels s) (heap_start s) (brk s) (lastFencePost s)
    (base s) (osChunkList s) (numOsChunks s) (stdout s) (stderr s).

Definition set_brk (b : Z) (s : allocator) : allocator :=
  mkAllocator (mem s) (sentinels s) (heap_start s) b (lastFencePost s)
    (base s) (osChunkList s) (numOsChunks s) (stdout s) (stderr s).

Definition set_lastFencePost (p : Z) (s : allocator) : allocator :=
  mkAllocator (mem s) (sentinels s) (heap_start s) (brk s) p
    (base s) (osChunkList s) (numOsChunks s) (stdout s) (stderr s).

Definition set_base (p : Z) (s : allocator) : allocator :=
  mkAllocator (mem s) (sentinels s) (heap_start s) (brk s) (lastFencePost s)
    p (osChunkList s) (numOsChunks s) (stdout s) (stderr s).

Definition set_osChunk (i p : Z) (s : allocator) : allocator :=
  mkAllocator (mem s) (sentinels s) (heap_start s) (brk s) (lastFencePost s)
    (base s) (<[i := p]> (osChunkList s)) (numOsChunks s) (stdout s) (stderr s).

Definition set_numOsChunks (n : Z) (s : allocator) : allocator :=
  mkAllocator (mem s) (sentinels s) (heap_start s) (brk s) (lastFencePost s)
    (base s) (osChunkList s) n (stdout s) (stderr s).

Definition add_stdout (msg : string) (s : allocator) : allocator :=
  mkAllocator (mem s) (sentinels s) (heap_start s) (brk s) (lastFencePost s)
    (base s) (osChunkList s) (numOsChunks s) (stdout s ++ [msg]) (stderr s).

Definition add_stderr (msg : string) (s : allocator) : allocator :=
  mkAllocator (mem s) (sentinels s) (heap_start s) (brk s) (lastFencePost s)
    (base s) (osChunkList s) (numOsChunks s) (stdout s) (stderr s ++ [msg]).

(** How a call ends: it returns a value, the process terminates with an
    exit status, an access touches unmapped memory, or the bound on loop
    iterations given to the model is used up. *)
Inductive outcome (A : Type) : Type :=
| Ret (a : A) (s : allocator)
| Exit (code : Z) (s : allocator)
| Fault
| OutOfFuel.

Arguments Ret {A} a s.
Arguments Exit {A} code s.
Arguments Fault {A}.
Arguments OutOfFuel {A}.

Definition M (A : Type) : Type := allocator -> outcome A.

Definition ret {A} (a : A) : M A := fun s => Ret a s.

Definition bind {A B} (c : M A) (k : A -> M B) : M B :=
  fun s =>
    match c s with
    | Ret a s' => k a s'
    | Exit code s' => Exit code s'
    | Fault => Fault
    | OutOfFuel => OutOfFuel
    end.

Declare Scope alloc_scope.
Delimit Scope alloc_scope with alloc.
Notation "x <- c ;; k" := (bind c (fun x => k))
  (at level 100, c at next level, right associativity) : alloc_scope.
Notation "c ;;; k" := (bind c (fun _ => k))
  (at level 100, right associativity) : alloc_scope.
Local Open Scope alloc_scope.

Definition fault {A} : M A := fun _ => Fault.
Definition out_of_fuel {A} : M A := fun _ => OutOfFuel.
Definition get_state : M allocator := fun s => Ret s s.
Definition modify (f : allocator -> allocator) : M unit := fun s => Ret tt (f s).

(** ** Mapped memory *)

(** The bytes the process may touch: the static sentinel array and the
    heap between the initial and the current program break.  Anything
    else, the null page in particular, is unmapped. *)
Definition mapped (s : allocator) (a n : Z) : bool :=
  ((sentinels s <=? a) && (a + n <=? sentinels s + sizeof_header * N_LISTS))
  || ((heap_start s <=? a) && (a + n <=? brk s)).

Definition load (a : Z) : M Z :=
  fun s => if mapped s a 8 then Ret (Mem.load64 (mem s) a) s else Fault.

Definition store (a v : Z) : M unit :=
  fun s => if mapped s a 8 then Ret tt (set_mem (Mem.store64 (mem s) a v) s)
           else Fault.

(** ** Header accessors *)

(** Field offsets of [header]: the size-and-state word, [left_size], and
    the two list links that overlay the first bytes of the body. *)
Definition off_left_size : Z := 8.
Definition off_next : Z := 16.
Definition off_prev : Z := 24.

Definition load_left_size (h : Z) : M Z := load (h + off_left_size).
Definition store_left_size (h v : Z) : M unit := store (h + off_left_size) v.
Definition load_next (h : Z) : M Z := load (h + off_next).
Definition store_next (h v : Z) : M unit := store (h + off_next) v.
Definition load_prev (h : Z) : M Z := load (h + off_prev).
Definition store_prev (h v : Z) : M unit := store (h + off_prev) v.

(** Modelled from the spec: the accessors of [myMalloc.h] are not among
    the sources.  The size and the state share the first word of the
    header, the state in its low three bits; each setter preserves the
    other field. *)
Definition state_bits : Z := 7.

Definition get_block_size (h : Z) : M Z :=
  w <- load h ;; ret (Z.land w (Z.lnot state_bits)).

Definition get_block_state (h : Z) : M Z :=
  w <- load h ;; ret (Z.land w state_bits).

Definition set_block_size (h size : Z) : M unit :=
  w <- load h ;;
  store h (Z.lor (Z.land size (Z.lnot state_bits)) (Z.land w state_bits)).

Definition set_block_state (h st : Z) : M unit :=
  w <- load h ;;
  store h (Z.lor (Z.land w (Z.lnot state_bits)) (Z.land st state_bits)).

(** ** Pointer helpers *)

Definition get_header_from_offset (ptr off : Z) : Z := Word.u64 (ptr + off).

Definition get_right_header (h : Z) : M Z :=
  size <- get_block_size h ;; ret (get_header_from_offset h size).

Definition get_left_header (h : Z) : M Z :=
  l <- load_left_size h ;; ret (get_header_from_offset h (- l)).

Definition ptr_to_header (p : Z) : Z := Word.u64 (p - ALLOC_HEADER_SIZE).

(** [&freelistSentinels[i]] *)
Definition sentinel (s : allocator) (i : Z) : Z := sentinels s + sizeof_header * i.

(** ** Chunk acquisition *)

(** The model's operating system grants every request: the old break is
    returned and the break moves up by [size]. *)
Definition sbrk (size : Z) : M Z :=
  fun s => Ret (brk s) (set_brk (brk s + size) s).

Definition initialize_fencepost (fp left_size : Z) : M unit :=
  set_block_state fp FENCEPOST ;;;
  set_block_size fp ALLOC_HEADER_SIZE ;;;
  store_left_size fp left_size.

Definition insert_os_chunk (hdr : Z) : M unit :=
  s <- get_state ;;
  if numOsChunks s <? MAX_OS_CHUNKS then
    modify (fun s => set_numOsChunks (Word.u64 (numOsChunks s + 1))
                       (set_osChunk (numOsChunks s) hdr s))
  else ret tt.

Definition insert_fenceposts (raw_mem size : Z) : M unit :=
  let leftFencePost := raw_mem in
  initialize_fencepost leftFencePost ALLOC_HEADER_SIZE ;;;
  let rightFencePost :=
    get_header_from_offset raw_mem (Word.u64 (size - ALLOC_HEADER_SIZE)) in
  initialize_fencepost rightFencePost (Word.u64 (size - 2 * ALLOC_HEADER_SIZE)).

Definition allocate_chunk (size : Z) : M Z :=
  mem0 <- sbrk size ;;
  insert_fenceposts mem0 size ;;;
  let hdr := Word.u64 (mem0 + ALLOC_HEADER_SIZE) in
  set_block_state hdr UNALLOCATED ;;;
  set_block_size hdr (Word.u64 (size - 2 * ALLOC_HEADER_SIZE)) ;;;
  store_left_size hdr ALLOC_HEADER_SIZE ;;;
  ret hdr.

(** ** Allocation *)

(** The [while] loop that walks the catch-all list for the first block
    that is large enough; it yields [NULL] when the walk comes back to
    the sentinel. *)
Fixpoint first_fit (fuel : nat) (hdr size sent : Z) : M Z :=
  match fuel with
  | O => out_of_fuel
  | S fuel' =>
      bsz <- get_block_size hdr ;;
      if bsz <? Word.u64 size then
        nxt <- load_next hdr ;;
        if nxt =? sent then ret NULL else first_fit fuel' nxt size sent
      else ret hdr
  end.

(** Unlinking of the chosen block, remembering its old neighbours. *)
Definition unlink_chosen (hdr : Z) : M (Z * Z) :=
  n <- load_next hdr ;;
  p <- load_prev hdr ;;
  store_prev n p ;;;
  p <- load_prev hdr ;;
  n <- load_next hdr ;;
  store_next p n ;;;
  oldPrev <- load_prev hdr ;;
  oldNext <- load_next hdr ;;
  store_prev hdr NULL ;;;
  store_next hdr NULL ;;;
  ret (oldNext, oldPrev).

(** The [for] loop over the size classes, from class [i] upward.  It
    yields the chosen block with its remembered links, or three null
    pointers when every class from [i] on is empty. *)
Fixpoint search (fuel : nat) (i size : Z) : M (Z * (Z * Z)) :=
  match fuel with
  | O => out_of_fuel
  | S fuel' =>
      if i <? N_LISTS then
        s <- get_state ;;
        let sent := sentinel s i in
        p <- load_prev sent ;;
        if negb (p =? sent) then
          hdr <- load_next sent ;;
          hdr <- (if i =? N_LISTS - 1
                  then first_fit fuel' hdr size sent
                  else ret hdr) ;;
          links <- unlink_chosen hdr ;;
          ret (hdr, links)
        else search fuel' (i + 1) size
      else ret (NULL, (NULL, NULL))
  end.

(** The request size as the source computes it, in [int] arithmetic. *)
Definition block_size_of (raw_size : Z) : Z :=
  let size := Word.to_int raw_size in
  let size :=
    if negb (Word.int_rem size 8 =? 0)
    then Word.to_int (Word.u64 (Word.u64 size + Word.u64 (8 - raw_size mod 8)))
    else size in
  Word.to_int (Word.u64 (Word.u64 size + ALLOC_HEADER_SIZE)).

(** [(size - ALLOC_HEADER_SIZE) / 8 - 1], computed in [size_t] and
    stored in an [int]. *)
Definition list_index (size : Z) : Z :=
  Word.to_int
    (Word.u64 (Word.u64 (Word.u64 size - ALLOC_HEADER_SIZE) / sizeof_ptr - 1)).

(** Growth: a new chunk is obtained, merged with the previous chunk when
    the two touch, registered otherwise, and put at the head of the
    catch-all list. *)
Definition grow : M unit :=
  hdr <- allocate_chunk ARENA_SIZE ;;
  rightPost <- get_right_header hdr ;;
  leftPost <- get_left_header hdr ;;
  s <- get_state ;;
  hdr <-
    (if Word.u64 (leftPost - ALLOC_HEADER_SIZE) =? lastFencePost s then
       let temp := lastFencePost s in
       lastBlock <- get_left_header temp ;;
       st <- get_block_state lastBlock ;;
       hdr <-
         (if st =? UNALLOCATED then
            a <- get_block_size lastBlock ;;
            b <- get_block_size hdr ;;
            set_block_size lastBlock
              (Word.u64 (a + 2 * ALLOC_HEADER_SIZE + b)) ;;;
            n <- load_next lastBlock ;;
            p <- load_prev lastBlock ;;
            store_prev n p ;;;
            p <- load_prev lastBlock ;;
            n <- load_next lastBlock ;;
            store_next p n ;;;
            ret lastBlock
          else
            set_block_state temp UNALLOCATED ;;;
            b <- get_block_size hdr ;;
            set_block_size temp (Word.u64 (b + 2 * ALLOC_HEADER_SIZE)) ;;;
            ret temp) ;;
       sz <- get_block_size hdr ;;
       store_left_size rightPost sz ;;;
       ret hdr
     else
       modify (fun s => set_osChunk (numOsChunks s) leftPost s) ;;;
       modify (fun s => set_numOsChunks (Word.u64 (numOsChunks s + 1)) s) ;;;
       ret hdr) ;;
  s <- get_state ;;
  let last := sentinel s (N_LISTS - 1) in
  n <- load_next last ;;
  store_prev n hdr ;;;
  n <- load_next last ;;
  store_next hdr n ;;;
  store_next last hdr ;;;
  store_prev hdr last ;;;
  modify (set_lastFencePost rightPost).

(** Splitting of the chosen block and hand-over of the allocated part. *)
Definition carve (hdr oldNext oldPrev size : Z) : M Z :=
  bsz <- get_block_size hdr ;;
  let extra := Word.to_int (Word.u64 (bsz - Word.u64 size)) in
  hdr <-
    (if Word.u64 extra >=? sizeof_header then
       let tempHdr := hdr in
       let hdr := Word.u64 (hdr + extra) in
       set_block_size tempHdr (Word.u64 extra) ;;;
       set_block_state tempHdr UNALLOCATED ;;;
       let loc := list_index extra in
       (if loc >=? N_LISTS then
          store_next tempHdr oldNext ;;;
          store_prev tempHdr oldPrev ;;;
          store_prev oldNext tempHdr ;;;
          store_next oldPrev tempHdr
        else
          s <- get_state ;;
          n <- load_next (sentinel s loc) ;;
          store_next tempHdr n ;;;
          store_next (sentinel s loc) tempHdr ;;;
          n <- load_next tempHdr ;;
          store_prev n tempHdr ;;;
          store_prev tempHdr (sentinel s loc)) ;;;
       set_block_size hdr (Word.u64 size) ;;;
       store_left_size hdr (Word.u64 extra) ;;;
       ret hdr
     else ret hdr) ;;
  right <- get_right_header hdr ;;
  sz <- get_block_size hdr ;;
  store_left_size right sz ;;;
  set_block_state hdr ALLOCATED ;;;
  ret (Word.u64 (hdr + ALLOC_HEADER_SIZE)).

Fixpoint allocate_object (fuel : nat) (raw_size : Z) : M Z :=
  match fuel with
  | O => out_of_fuel
  | S fuel' =>
      if raw_size <=? 0 then ret NULL
      else
        let raw_size := if raw_size <=? 8 then 16 else raw_size in
        let size := block_size_of raw_size in
        let smallest := list_index size in
        let smallest := if smallest >=? N_LISTS then N_LISTS - 1 else smallest in
        found <- search fuel smallest size ;;
        let '(hdr, (oldNext, oldPrev)) := found in
        if hdr =? NULL then
          grow ;;; allocate_object fuel' raw_size
        else carve hdr oldNext oldPrev size
  end.

(** ** Output and termination *)

Definition newline : string := String (ascii_of_nat 10) EmptyString.

Definition msg_double_free : string := "Double Free Detected" ++ newline.
Definition msg_assertion : string := "Assertion Failed!" ++ newline.

(** [printf] writes to standard output. *)
Definition printf (msg : string) : M unit := modify (add_stdout msg).

(** [fprintf(stderr, ...)] and [write(2, ...)]. *)
Definition eprintf (msg : string) : M unit := modify (add_stderr msg).

Definition exit {A} (code : Z) : M A := fun s => Exit code s.

(** The file's own [assert], the one compiled under [TEST_ASSERT]. *)
Definition assert (e : bool) : M unit :=
  if negb e then
    eprintf msg_assertion ;;; exit 1
  else ret tt.

(** ** Deallocation *)

(** Size above which a free block lives in the catch-all list:
    [(N_LISTS - 1) * sizeof(header * ) + ALLOC_HEADER_SIZE]. *)
Definition last_list_threshold : Z :=
  Word.u64 ((N_LISTS - 1) * sizeof_ptr + ALLOC_HEADER_SIZE).

Definition deallocate_object (p : Z) : M unit :=
  if p =? NULL then ret tt
  else
    let hdr := ptr_to_header p in
    st <- get_block_state hdr ;;
    if st =? UNALLOCATED then
      printf msg_double_free ;;;
      assert false ;;;
      ret tt
    else if st =? FENCEPOST then ret tt
    else
      set_block_state hdr UNALLOCATED ;;;
      right <- get_right_header hdr ;;
      left <- get_left_header hdr ;;
      rst <- get_block_state right ;;
      coalR <-
        (if rst =? UNALLOCATED then
           a <- get_block_size hdr ;;
           b <- get_block_size right ;;
           set_block_size hdr (Word.u64 (a + b)) ;;;
           n <- load_next right ;;
           pv <- load_prev right ;;
           store_prev n pv ;;;
           pv <- load_prev right ;;
           n <- load_next right ;;
           store_next pv n ;;;
           temp <- get_right_header right ;;
           sz <- get_block_size hdr ;;
           store_left_size temp sz ;;;
           rsz <- get_block_size right ;;
           ret (rsz >? last_list_threshold)
         else ret false) ;;
      lst <- get_block_state left ;;
      res <-
        (if lst =? UNALLOCATED then
           n <- load_next left ;;
           pv <- load_prev left ;;
           store_prev n pv ;;;
           pv <- load_prev left ;;
           n <- load_next left ;;
           store_next pv n ;;;
           lsz <- get_block_size left ;;
           let coalL := lsz >? last_list_threshold in
           a <- get_block_size left ;;
           b <- get_block_size hdr ;;
           set_block_size left (Word.u64 (a + b)) ;;;
           let hdr := left in
           right <- get_right_header hdr ;;
           sz <- get_block_size hdr ;;
           store_left_size right sz ;;;
           ret (coalL, (hdr, right))
         else ret (false, (hdr, right))) ;;
      let coalL := fst res in
      let hdr := fst (snd res) in
      let right := snd (snd res) in
      if coalL then
        n <- load_next left ;;
        store_prev n hdr ;;;
        pv <- load_prev left ;;
        store_next pv hdr ;;;
        n <- load_next left ;;
        store_next hdr n ;;;
        pv <- load_prev left ;;
        store_prev hdr pv
      else if coalR then
        n <- load_next right ;;
        store_prev n hdr ;;;
        pv <- load_prev right ;;
        store_next pv hdr ;;;
        n <- load_next right ;;
        store_next hdr n ;;;
        pv <- load_prev right ;;
        store_prev hdr pv
      else
        sz <- get_block_size hdr ;;
        let listLoc := list_index sz in
        let listLoc := if listLoc >=? N_LISTS then N_LISTS - 1 else listLoc in
        s <- get_state ;;
        store_prev hdr (sentinel s listLoc) ;;;
        n <- load_next (sentinel s listLoc) ;;
        store_next hdr n ;;;
        store_next (sentinel s listLoc) hdr ;;;
        n <- load_next hdr ;;
        store_prev n hdr.

(** ** The verifier *)

(** Modelled from the spec: [printing.h] is not among the sources.  The
    debug printers only emit a diagnostic dump whose text the spec
    leaves open; they do not touch the allocator. *)
Definition print_object (h : Z) : M unit := ret tt.
Definition print_sublist (start stop : Z) : M unit := ret tt.

(** Inner loop of [detect_cycles] on one list. *)
Fixpoint chase (fuel : nat) (freelist slow fast : Z) : M Z :=
  match fuel with
  | O => out_of_fuel
  | S fuel' =>
      if negb (fast =? freelist) then
        if slow =? fast then ret slow
        else
          slow' <- load_next slow ;;
          f1 <- load_next fast ;;
          fast' <- load_next f1 ;;
          chase fuel' freelist slow' fast'
      else ret NULL
  end.

(** The loop of [detect_cycles] over the lists [i], [i+1], ... for [n]
    more lists. *)
Fixpoint detect_cycles_from (fuel n : nat) (i : Z) : M Z :=
  match n with
  | O => ret NULL
  | S n' =>
      s <- get_state ;;
      let freelist := sentinel s i in
      slow <- load_next freelist ;;
      f1 <- load_next freelist ;;
      fast <- load_next f1 ;;
      r <- chase fuel freelist slow fast ;;
      if negb (r =? NULL) then ret r
      else detect_cycles_from fuel n' (i + 1)
  end.

Definition detect_cycles (fuel : nat) : M Z :=
  detect_cycles_from fuel (Z.to_nat N_LISTS) 0.

(** Inner loop of [verify_pointers] on one list. *)
Fixpoint check_links (fuel : nat) (freelist cur : Z) : M Z :=
  match fuel with
  | O => out_of_fuel
  | S fuel' =>
      if negb (cur =? freelist) then
        n <- load_next cur ;;
        np <- load_prev n ;;
        if negb (np =? cur) then ret cur
        else
          p <- load_prev cur ;;
          pn <- load_next p ;;
          if negb (pn =? cur) then ret cur
          else
            nxt <- load_next cur ;;
            check_links fuel' freelist nxt
      else ret NULL
  end.

Fixpoint verify_pointers_from (fuel n : nat) (i : Z) : M Z :=
  match n with
  | O => ret NULL
  | S n' =>
      s <- get_state ;;
      let freelist := sentinel s i in
      cur <- load_next freelist ;;
      r <- check_links fuel freelist cur ;;
      if negb (r =? NULL) then ret r
      else verify_pointers_from fuel n' (i + 1)
  end.

Definition verify_pointers (fuel : nat) : M Z :=
  verify_pointers_from fuel (Z.to_nat N_LISTS) 0.

Definition verify_freelist (fuel : nat) : M bool :=
  cycle <- detect_cycles fuel ;;
  if negb (cycle =? NULL) then
    eprintf ("Cycle Detected" ++ newline) ;;;
    n <- load_next cycle ;;
    print_sublist n cycle ;;;
    ret false
  else
    invalid <- verify_pointers fuel ;;
    if negb (invalid =? NULL) then
      eprintf ("Invalid pointers" ++ newline) ;;;
      print_object invalid ;;;
      ret false
    else ret true.

(** The [for] loop of [verify_chunk]. *)
Fixpoint walk_chunk (fuel : nat) (chunk : Z) : M Z :=
  match fuel with
  | O => out_of_fuel
  | S fuel' =>
      st <- get_block_state chunk ;;
      if negb (st =? FENCEPOST) then
        sz <- get_block_size chunk ;;
        r <- get_right_header chunk ;;
        l <- load_left_size r ;;
        if negb (sz =? l) then
          eprintf ("Invalid sizes" ++ newline) ;;;
          print_object chunk ;;;
          ret chunk
        else
          nxt <- get_right_header chunk ;;
          walk_chunk fuel' nxt
      else ret NULL
  end.

Definition verify_chunk (fuel : nat) (chunk : Z) : M Z :=
  st <- get_block_state chunk ;;
  if negb (st =? FENCEPOST) then
    eprintf ("Invalid fencepost" ++ newline) ;;;
    print_object chunk ;;;
    ret chunk
  else walk_chunk fuel chunk.

(** The loop of [verify_tags]: [n] more registry entries from index [i].
    The function is declared [bool] and returns the pointer [invalid]
    when a chunk is rejected and [NULL] at the end; the conversion to
    [bool] makes these [true] and [false]. *)
Fixpoint verify_tags_from (fuel n : nat) (i : Z) : M bool :=
  match n with
  | O => ret (negb (NULL =? 0))
  | S n' =>
      s <- get_state ;;
      let chunk := match osChunkList s !! i with Some c => c | None => 0 end in
      invalid <- verify_chunk fuel chunk ;;
      if negb (invalid =? NULL) then ret (negb (invalid =? 0))
      else verify_tags_from fuel n' (i + 1)
  end.

Definition verify_tags (fuel : nat) : M bool :=
  s <- get_state ;;
  verify_tags_from fuel (Z.to_nat (numOsChunks s)) 0.

(** ** Initialisation and the public interface *)

Fixpoint init_sentinels (n : nat) (i : Z) : M unit :=
  match n with
  | O => ret tt
  | S n' =>
      s <- get_state ;;
      let freelist := sentinel s i in
      store_next freelist freelist ;;;
      store_prev freelist freelist ;;;
      init_sentinels n' (i + 1)
  end.

Definition init : M unit :=
  block <- allocate_chunk ARENA_SIZE ;;
  let prevFencePost := get_header_from_offset block (- ALLOC_HEADER_SIZE) in
  insert_os_chunk prevFencePost ;;;
  sz <- get_block_size block ;;
  modify (set_lastFencePost (get_header_from_offset block sz)) ;;;
  modify (set_base (Word.u64 (block - ALLOC_HEADER_SIZE))) ;;;
  init_sentinels (Z.to_nat N_LISTS) 0 ;;;
  s <- get_state ;;
  let freelist := sentinel s (N_LISTS - 1) in
  store_next freelist block ;;;
  store_prev freelist block ;;;
  store_next block freelist ;;;
  store_prev block freelist.

(** The state of a freshly loaded process, before [init] has run. *)
Definition loaded (sent brk0 : Z) : allocator :=
  mkAllocator ∅ sent brk0 brk0 0 0 ∅ 0 [] [].

(** The mutex is taken and released around the helper; a single thread
    of calls is modelled, for which locking has no effect. *)
Definition my_malloc (fuel : nat) (size : Z) : M Z := allocate_object fuel size.

Definition my_free (p : Z) : M unit := deallocate_object p.

(** [memset(dst, c, n)]: [n] bytes starting at [dst] are set to [c]. *)
Definition memset (dst c n : Z) : M Z :=
  fun s =>
    if (n =? 0) || mapped s dst n then
      Ret dst (set_mem (Mem.store_bytes (mem s) dst
                          (repeat (c mod 256) (Z.to_nat n))) s)
    else Fault.

(** [memcpy(dst, src, n)]: [n] bytes are read at [src] and written at
    [dst].  C defines the call for ranges that do not overlap. *)
Definition memcpy (dst src n : Z) : M Z :=
  fun s =>
    if (n =? 0) || (mapped s dst n && mapped s src n) then
      Ret dst (set_mem (Mem.store_bytes (mem s) dst
                          (Mem.load_bytes (mem s) src (Z.to_nat n))) s)
    else Fault.

Definition my_calloc (fuel : nat) (nmemb size : Z) : M Z :=
  p <- my_malloc fuel (Word.u64 (size * nmemb)) ;;
  memset p 0 (Word.u64 (size * nmemb)).

Definition my_realloc (fuel : nat) (ptr size : Z) : M Z :=
  mem' <- my_malloc fuel size ;;
  memcpy mem' ptr size ;;;
  my_free ptr ;;;
  ret mem'.

Definition verify (fuel : nat) : M bool :=
  ok <- verify_freelist fuel ;;
  if ok then verify_tags fuel else ret false.

(** ** Call sequences *)

(** A client of the allocator: it allocates, frees a pointer it got from
    an earlier allocation, and other code of the same process may move
    the program break with [sbrk] in between. *)
Inductive call : Type :=
| Malloc (size : Z)
| Free (k : nat)
| Sbrk (n : Z).

(** [run fuel cs ptrs] performs the calls in order; [ptrs] collects the
    pointers returned by the allocations so far, and [Free k] releases
    the [k]-th of them. *)
Fixpoint run (fuel : nat) (cs : list call) (ptrs : list Z) : M (list Z) :=
  match cs with
  | [] => ret ptrs
  | Malloc size :: rest =>
      p <- my_malloc fuel size ;;
      run fuel rest (ptrs ++ [p])
  | Free k :: rest =>
      my_free (nth k ptrs NULL) ;;;
      run fuel rest ptrs
  | Sbrk n :: rest =>
      sbrk n ;;;
      run fuel rest ptrs
  end.

(** The allocator as the first public call finds it: the constructor
    [init] has run in a freshly loaded process. *)
Definition started (sent brk0 : Z) : outcome unit := init (loaded sent brk0).

(** Continuation of an outcome by a further computation. *)
Definition and_then {A B} (o : outcome A) (k : A -> M B) : outcome B :=
  match o with
  | Ret a s => k a s
  | Exit code s => Exit code s
  | Fault => Fault
  | OutOfFuel => OutOfFuel
  end.

Definition final_state {A} (o : outcome A) : option allocator :=
  match o with
  | Ret _ s | Exit _ s => Some s
  | _ => None
  end.

Definition returned {A} (o : outcome A) : option A :=
  match o with
  | Ret a _ => Some a
  | _ => None
  end.

(** The blocks of free list [i] in list order, read from the links. *)
Fixpoint list_from (fuel : nat) (sent cur : Z) : M (list Z) :=
  match fuel with
  | O => out_of_fuel
  | S fuel' =>
      if cur =? sent then ret []
      else
        n <- load_next cur ;;
        rest <- list_from fuel' sent n ;;
        ret (cur :: rest)
  end.

Definition freelist (fuel : nat) (i : Z) : M (list Z) :=
  s <- get_state ;;
  h <- load_next (sentinel s i) ;;
  list_from fuel (sentinel s i) h.

(** ** The structural invariants, as the specification words them *)

(** Boundary tags of one chunk: starting at the left fencepost, every
    block's size is mirrored in the [left_size] of its right neighbour,
    up to the next fencepost. *)
Fixpoint spec_tags_from (fuel : nat) (block : Z) : M bool :=
  match fuel with
  | O => out_of_fuel
  | S fuel' =>
      sz <- get_block_size block ;;
      r <- get_right_header block ;;
      l <- load_left_size r ;;
      if sz =? l then
        st <- get_block_state r ;;
        if st =? FENCEPOST then ret true else spec_tags_from fuel' r
      else ret false
  end.

Definition spec_chunk_ok (fuel : nat) (chunk : Z) : M bool :=
  st <- get_block_state chunk ;;
  if st =? FENCEPOST then spec_tags_from fuel chunk else ret false.

Fixpoint spec_tags_ok_from (fuel n : nat) (i : Z) : M bool :=
  match n with
  | O => ret true
  | S n' =>
      s <- get_state ;;
      let chunk := match osChunkList s !! i with Some c => c | None => 0 end in
      ok <- spec_chunk_ok fuel chunk ;;
      if ok then spec_tags_ok_from fuel n' (i + 1) else ret false
  end.

(** Free lists without cycle and with symmetric links, and consistent
    boundary tags in every registered chunk. *)
Definition spec_invariants (fuel : nat) : M bool :=
  cycle <- detect_cycles fuel ;;
  invalid <- verify_pointers fuel ;;
  s <- get_state ;;
  tags <- spec_tags_ok_from fuel (Z.to_nat (numOsChunks s)) 0 ;;
  ret ((cycle =? NULL) && (invalid =? NULL) && tags).

(** ** A concrete process *)

(** A process image with the sentinel array at address 4096 and the
    initial program break at 65536. *)
Definition process : outcome unit := started 4096 65536.

(** The calls of [cs] made by the process after start-up. *)
Definition session (fuel : nat) (cs : list call) : outcome (list Z) :=
  and_then process (fun _ => run fuel cs []).

(** [n] rounds in which other code moves the break by 16 bytes and the
    client then asks for 4040 bytes. *)
Fixpoint growth_rounds (n : nat) : list call :=
  match n with
  | O => []
  | S k => Sbrk 16 :: Malloc 4040 :: growth_rounds k
  end.

(** Two UNALLOCATED blocks side by side: [b] and its right neighbour. *)
Definition adjacent_free (b : Z) : M bool :=
  st <- get_block_state b ;;
  r <- get_right_header b ;;
  rst <- get_block_state r ;;
  ret ((st =? UNALLOCATED) && (rst =? UNALLOCATED)).

(** The state an outcome carries, when it carries one. *)
Definition state_of {A} (o : outcome A) : allocator :=
  match final_state o with
  | Some s => s
  | None => loaded 0 0
  end.

(** The state in which a session ends, when it ends with a state. *)
Definition state_after (fuel : nat) (cs : list call) : allocator :=
  match final_state (session fuel cs) with
  | Some s => s
  | None => loaded 0 0
  end.

(** The [k]-th pointer handed out in a session. *)
Definition pointer_of (fuel : nat) (cs : list call) (k : nat) : Z :=
  match returned (session fuel cs) with
  | Some ptrs => nth k ptrs NULL
  | None => NULL
  end.

(** Enough iterations for every loop of the sessions below. *)
Definition plenty : nat := 64.

(** States reached by short sessions, used as concrete instances. *)
Definition freed_once : allocator := state_after plenty [Malloc 16; Free 0].
Definition one_block : allocator := state_after plenty [Malloc 16].

(** The process after its left fencepost has been overwritten. *)
Definition smashed_fencepost : outcome unit :=
  and_then process (fun _ => set_block_state 65536 ALLOCATED).

(** ** Computations that only read *)

(** A computation is read-only when every state it returns is the state
    it started from. *)
Definition read_only {A} (c : M A) : Prop :=
  forall s a s', c s = Ret a s' -> s' = s.

(** ** Memory effect of writing a header *)

(** What [set_block_state h st], [set_block_size h size] and the store
    [h->left_size = l], done in this order, leave in memory. *)
Definition write_header (m : gmap Z Z) (h st size l : Z) : gmap Z Z :=
  let m1 := Mem.store64 m h
              (Z.lor (Z.land (Mem.load64 m h) (Z.lnot state_bits))
                     (Z.land st state_bits)) in
  let m2 := Mem.store64 m1 h
              (Z.lor (Z.land size (Z.lnot state_bits))
                     (Z.land (Mem.load64 m1 h) state_bits)) in
  Mem.store64 m2 (h + off_left_size) l.

(** ** Calls that change memory only *)

(** [s'] differs from [s] in the heap bytes at most. *)
Definition same_frame (s s' : allocator) : Prop := s' = set_mem (mem s') s.

(** A computation changes memory only when every state it returns
    differs from the initial one in the heap bytes at most. *)
Definition only_mem {A} (c : M A) : Prop :=
  forall s a s', c s = Ret a s' -> same_frame s s'.

(** A computation that changes memory only and then applies [f] to the
    other fields. *)
Definition mem_then (f : allocator -> allocator) {A} (c : M A) : Prop :=
  forall s a s', c s = Ret a s' -> exists s1, same_frame s s1 /\ s' = f s1.

(** The mapped regions lie within the 64-bit address space. *)
Definition address_space (s : allocator) : Prop :=
  0 <= sentinels s /\ sentinels s + sizeof_header * N_LISTS <= 2 ^ 64 /\
  0 <= heap_start s /\ brk s <= 2 ^ 64.

(** The break is where the allocator left it: [lastFencePost] is the
    last header below the break. *)
Definition break_tracked (s : allocator) : Prop :=
  0 <= heap_start s /\ heap_start s + ALLOC_HEADER_SIZE <= brk s /\
  lastFencePost s = brk s - ALLOC_HEADER_SIZE.

(** [s'] is [s] after [n] bytes were added below the break by the
    allocator itself: apart from the heap bytes, only the break and
    [lastFencePost] have moved; the registry and the output are those
    of [s]. *)
Definition grown_by (n : Z) (s s' : allocator) : Prop :=
  sentinels s' = sentinels s /\ heap_start s' = heap_start s /\
  brk s' = brk s + n /\
  lastFencePost s' = brk s + n - ALLOC_HEADER_SIZE /\
  base s' = base s /\ osChunkList s' = osChunkList s /\
  numOsChunks s' = numOsChunks s /\
  stdout s' = stdout s /\ stderr s' = stderr s.

(** A call of the client itself, as opposed to other code moving the
    break. *)
Definition own_call (c : call) : bool :=
  match c with
  | Sbrk _ => false
  | _ => true
  end.

(** ** Well-formed free lists *)

(** The catch-all list as the walk sees it: the blocks of [l] with their
    sizes, each linked to the next one and the last one to the
    sentinel. *)
Fixpoint listed (s : allocator) (sent : Z) (l : list (Z * Z)) : Prop :=
  match l with
  | [] => True
  | (b, sz) :: rest =>
      b <> sent /\
      get_block_size b s = Ret sz s /\
      load_next b s = Ret (match rest with [] => sent | (b', _) :: _ => b' end) s /\
      listed s sent rest
  end.

(** The first block of [l] that is at least [size] bytes long, or null. *)
Fixpoint first_fitting (size : Z) (l : list (Z * Z)) : Z :=
  match l with
  | [] => NULL
  | (b, sz) :: rest => if sz <? Word.u64 size then first_fitting size rest else b
  end.

(** A circular doubly linked list: the sentinel followed by the blocks
    of [l], all distinct, every [next] leading to the following node and
    every [prev] leading back. *)
Definition ring (s : allocator) (sent : Z) (l : list Z) : Prop :=
  let cyc := sent :: l in
  List.NoDup cyc /\
  forall k, (k < length cyc)%nat ->
    load_next (nth k cyc 0) s = Ret (nth (S k mod length cyc) cyc 0) s /\
    load_prev (nth (S k mod length cyc) cyc 0) s = Ret (nth k cyc 0) s.

(** ** Further concrete states *)

(** The heap as [init] leaves it in the concrete process. *)
Definition fresh_heap : allocator := state_of process.

(** The heap after the only free block has been handed out whole. *)
Definition drained_heap : allocator := state_after plenty [Malloc 4040].

(** The process after other code has moved the break up by 8 GiB: the
    heap is mapped far beyond the allocator's single arena. *)
Definition roomy_heap : allocator := state_after plenty [Sbrk (2 ^ 33)].

(** A heap whose catch-all list holds two blocks. *)
Definition two_in_catch_all : allocator :=
  state_after plenty [Malloc 16; Malloc 600; Malloc 16; Free 1].

(** ** The heap after initialisation *)

(** What [init] leaves behind in a process whose sentinel array is at
    [sent] and whose break was at [brk0]: one registered chunk with its
    two fenceposts, the free lists 0 to [N_LISTS - 2] empty, and the
    body of the chunk as the only block of the catch-all list. *)
Definition initial_heap (sent brk0 : Z) (s : allocator) : Prop :=
  sentinels s = sent /\ heap_start s = brk0 /\ brk s = brk0 + ARENA_SIZE /\
  lastFencePost s = brk0 + ARENA_SIZE - ALLOC_HEADER_SIZE /\ base s = brk0 /\
  numOsChunks s = 1 /\ osChunkList s !! 0 = Some brk0 /\
  stdout s = [] /\ stderr s = [] /\
  (forall i, 0 <= i < N_LISTS - 1 ->
     load_next (sentinel s i) s = Ret (sentinel s i) s /\
     load_prev (sentinel s i) s = Ret (sentinel s i) s) /\
  let block := brk0 + ALLOC_HEADER_SIZE in
  let last := sentinel s (N_LISTS - 1) in
  load_next last s = Ret block s /\ load_prev last s = Ret block s /\
  load_next block s = Ret last s /\ load_prev block s = Ret last s /\
  get_block_state block s = Ret UNALLOCATED s /\
  get_block_size block s = Ret (ARENA_SIZE - 2 * ALLOC_HEADER_SIZE) s /\
  get_block_state brk0 s = Ret FENCEPOST s /\
  get_block_state (lastFencePost s) s = Ret FENCEPOST s.

(** ** Well-formed bytes *)

(** Every byte of the memory is a byte. *)
Definition bytes_ok (m : gmap Z Z) : Prop :=
  forall a, 0 <= Mem.byte_at m a < 256.

Definition mem_ok (s : allocator) : Prop := bytes_ok (mem s).

(** A computation keeps a property of the state when every state it
    returns from a state with the property has it too. *)
Definition keeps (P : allocator -> Prop) {A} (c : M A) : Prop :=
  forall s a s', P s -> c s = Ret a s' -> P s'.

(** * Facts *)

(** ** Machine integers *)

Lemma u64_range x : 0 <= Word.u64 x < 2 ^ 64.
Proof. unfold Word.u64, Word.modulus64. apply Z.mod_pos_bound. lia. Qed.

Lemma u64_small x : 0 <= x < 2 ^ 64 -> Word.u64 x = x.
Proof. intros H. unfold Word.u64, Word.modulus64. apply Z.mod_small. exact H. Qed.

Lemma u64_mul_comm a b : Word.u64 (a * b) = (b * a) mod 2 ^ 64.
Proof. unfold Word.u64, Word.modulus64. f_equal. lia. Qed.

(** ** Bytes *)

Section Bytes.

Variable m : gmap Z Z.

Lemma byte_at_insert a b x :
  Mem.byte_at (<[a := b]> m) x = if decide (a = x) then b else Mem.byte_at m x.
Proof.
  unfold Mem.byte_at. rewrite lookup_insert.
  destruct (decide (a = x)); reflexivity.
Qed.

End Bytes.

Lemma byte_at_store_bytes bs : forall (m : gmap Z Z) a x,
  Mem.byte_at (Mem.store_bytes m a bs) x =
  if (a <=? x) && (x <? a + Z.of_nat (length bs))
  then nth (Z.to_nat (x - a)) bs 0
  else Mem.byte_at m x.
Proof.
  induction bs as [|b rest IH]; intros m a x; simpl Mem.store_bytes.
  - simpl length. destruct (a <=? x) eqn:E1; destruct (x <? a + Z.of_nat 0) eqn:E2;
      simpl; try reflexivity. lia.
  - rewrite IH, byte_at_insert.
    change (length (b :: rest)) with (S (length rest)).
    destruct (decide (a = x)) as [->|Hne].
    + replace (x + 1 <=? x) with false by lia.
      replace (x <=? x) with true by lia.
      replace (x <? x + Z.of_nat (S (length rest))) with true by lia.
      simpl. replace (x - x) with 0 by lia. reflexivity.
    + destruct (a + 1 <=? x) eqn:E1; destruct (x <? a + 1 + Z.of_nat (length rest)) eqn:E2; simpl.
      * replace (a <=? x) with true by lia.
        replace (x <? a + Z.of_nat (S (length rest))) with true by lia. simpl.
        replace (Z.to_nat (x - a)) with (S (Z.to_nat (x - (a + 1)))) by lia.
        reflexivity.
      * replace (x <? a + Z.of_nat (S (length rest))) with false by lia.
        rewrite andb_false_r. reflexivity.
      * replace (a <=? x) with false by lia. reflexivity.
      * replace (a <=? x) with false by lia. reflexivity.
Qed.

Lemma byte_at_store_bytes_in (m : gmap Z Z) a bs i :
  0 <= i < Z.of_nat (length bs) ->
  Mem.byte_at (Mem.store_bytes m a bs) (a + i) = nth (Z.to_nat i) bs 0.
Proof.
  intros H. rewrite byte_at_store_bytes.
  replace (a <=? a + i) with true by lia.
  replace (a + i <? a + Z.of_nat (length bs)) with true by lia.
  simpl. f_equal. lia.
Qed.

Lemma byte_at_store_bytes_out (m : gmap Z Z) a bs x :
  x < a \/ a + Z.of_nat (length bs) <= x ->
  Mem.byte_at (Mem.store_bytes m a bs) x = Mem.byte_at m x.
Proof.
  intros H. rewrite byte_at_store_bytes.
  destruct (a <=? x) eqn:E1; destruct (x <? a + Z.of_nat (length bs)) eqn:E2;
    simpl; try reflexivity. lia.
Qed.

Lemma length_load_bytes (m : gmap Z Z) n : forall a,
  length (Mem.load_bytes m a n) = n.
Proof. induction n as [|k IH]; intros a; simpl; [reflexivity | now rewrite IH]. Qed.

Lemma nth_load_bytes (m : gmap Z Z) n : forall a i,
  (i < n)%nat -> nth i (Mem.load_bytes m a n) 0 = Mem.byte_at m (a + Z.of_nat i).
Proof.
  induction n as [|k IH]; intros a i H; [lia|].
  simpl. destruct i as [|j].
  - f_equal. lia.
  - rewrite IH by lia. f_equal. lia.
Qed.

Lemma load_bytes_ext (m1 m2 : gmap Z Z) n : forall a,
  (forall i, 0 <= i < Z.of_nat n -> Mem.byte_at m1 (a + i) = Mem.byte_at m2 (a + i)) ->
  Mem.load_bytes m1 a n = Mem.load_bytes m2 a n.
Proof.
  induction n as [|k IH]; intros a H; simpl; [reflexivity|].
  f_equal.
  - specialize (H 0). rewrite Z.add_0_r in H. apply H. lia.
  - apply IH. intros i Hi. replace (a + 1 + i) with (a + (1 + i)) by lia.
    apply H. lia.
Qed.

Lemma load_bytes_store_bytes bs : forall (m : gmap Z Z) a,
  Mem.load_bytes (Mem.store_bytes m a bs) a (length bs) = bs.
Proof.
  intros m a. apply nth_ext with (d := 0) (d' := 0).
  - apply length_load_bytes.
  - intros i Hi. rewrite length_load_bytes in Hi.
    rewrite nth_load_bytes by exact Hi.
    rewrite byte_at_store_bytes_in by lia. f_equal. lia.
Qed.

Lemma length_encode n : forall v, length (Mem.encode n v) = n.
Proof. induction n as [|k IH]; intros v; simpl; [reflexivity | now rewrite IH]. Qed.

Lemma decode_encode n : forall v,
  Mem.decode (Mem.encode n v) = v mod 256 ^ Z.of_nat n.
Proof.
  induction n as [|k IH]; intros v.
  - simpl. now rewrite Z.mod_1_r.
  - cbn [Mem.encode Mem.decode]. rewrite IH.
    rewrite Nat2Z.inj_succ, Z.pow_succ_r by lia.
    rewrite Z.rem_mul_r by lia. reflexivity.
Qed.

Lemma load64_store64_same (m : gmap Z Z) a v :
  Mem.load64 (Mem.store64 m a v) a = Word.u64 v.
Proof.
  unfold Mem.load64, Mem.store64.
  change 8%nat with (length (Mem.encode 8 v)) at 1.
  rewrite load_bytes_store_bytes, decode_encode. reflexivity.
Qed.

Lemma load64_store64_other (m : gmap Z Z) a b v :
  a + 8 <= b \/ b + 8 <= a ->
  Mem.load64 (Mem.store64 m a v) b = Mem.load64 m b.
Proof.
  intros H. unfold Mem.load64, Mem.store64. f_equal.
  apply load_bytes_ext. intros i Hi.
  apply byte_at_store_bytes_out. rewrite length_encode. lia.
Qed.

(** ** The size-and-state word *)

Lemma testbit_state_bits n : 0 <= n -> Z.testbit state_bits n = (n <? 3).
Proof.
  intros H. change state_bits with (Z.ones 3).
  apply Z.testbit_ones_nonneg; lia.
Qed.

Ltac bitwise :=
  apply Z.bits_inj'; intros n Hn;
  repeat first
    [ rewrite Z.land_spec | rewrite Z.lor_spec
    | rewrite Z.lnot_spec by exact Hn
    | rewrite testbit_state_bits by exact Hn ];
  destruct (n <? 3) eqn:Hlow; simpl;
  rewrite ?andb_false_r, ?andb_true_r, ?orb_false_r, ?orb_false_l; try reflexivity.

Lemma state_of_word a b :
  Z.land (Z.lor (Z.land a (Z.lnot state_bits)) (Z.land b state_bits)) state_bits
  = Z.land b state_bits.
Proof. bitwise. Qed.

Lemma size_of_word a b :
  Z.land (Z.lor (Z.land a (Z.lnot state_bits)) (Z.land b state_bits))
         (Z.lnot state_bits)
  = Z.land a (Z.lnot state_bits).
Proof. bitwise. Qed.

Lemma size_aligned a : a mod 8 = 0 -> Z.land a (Z.lnot state_bits) = a.
Proof.
  intros H. bitwise.
  assert (E : Z.testbit (a mod 2 ^ 3) n = false).
  { change (2 ^ 3) with 8. rewrite H. apply Z.bits_0. }
  rewrite Z.testbit_mod_pow2 in E by lia. rewrite Hlow in E. simpl in E.
  now rewrite E.
Qed.

Lemma state_small b : 0 <= b < 8 -> Z.land b state_bits = b.
Proof.
  intros H. change state_bits with (Z.ones 3).
  rewrite Z.land_ones by lia. apply Z.mod_small. lia.
Qed.

Lemma state_of_u64 v : Z.land (Word.u64 v) state_bits = Z.land v state_bits.
Proof.
  unfold Word.u64, Word.modulus64. rewrite <- Z.land_ones by lia.
  rewrite <- Z.land_assoc. reflexivity.
Qed.

Lemma size_of_u64 v :
  Z.land (Word.u64 v) (Z.lnot state_bits) = Word.u64 (Z.land v (Z.lnot state_bits)).
Proof.
  unfold Word.u64, Word.modulus64. rewrite <- !Z.land_ones by lia.
  rewrite <- !Z.land_assoc. reflexivity.
Qed.

(** ** Running the primitives *)

Lemma mapped_heap s a n :
  heap_start s <= a -> a + n <= brk s -> mapped s a n = true.
Proof. intros H1 H2. unfold mapped. lia. Qed.

Lemma load_mapped s a :
  mapped s a 8 = true -> load a s = Ret (Mem.load64 (mem s) a) s.
Proof. intros H. unfold load. now rewrite H. Qed.

Lemma store_mapped s a v :
  mapped s a 8 = true ->
  store a v s = Ret tt (set_mem (Mem.store64 (mem s) a v) s).
Proof. intros H. unfold store. now rewrite H. Qed.


Lemma set_mem_set_mem m1 m2 s : set_mem m2 (set_mem m1 s) = set_mem m2 s.
Proof. reflexivity. Qed.

Lemma set_block_state_mapped s h st :
  mapped s h 8 = true ->
  set_block_state h st s =
  Ret tt (set_mem (Mem.store64 (mem s) h
            (Z.lor (Z.land (Mem.load64 (mem s) h) (Z.lnot state_bits))
                   (Z.land st state_bits))) s).
Proof.
  intros H. unfold set_block_state, bind. rewrite load_mapped by exact H.
  unfold ret. now rewrite store_mapped.
Qed.

Lemma set_block_size_mapped s h size :
  mapped s h 8 = true ->
  set_block_size h size s =
  Ret tt (set_mem (Mem.store64 (mem s) h
            (Z.lor (Z.land size (Z.lnot state_bits))
                   (Z.land (Mem.load64 (mem s) h) state_bits))) s).
Proof.
  intros H. unfold set_block_size, bind. rewrite load_mapped by exact H.
  unfold ret. now rewrite store_mapped.
Qed.

Lemma get_block_state_mapped s h :
  mapped s h 8 = true ->
  get_block_state h s = Ret (Z.land (Mem.load64 (mem s) h) state_bits) s.
Proof.
  intros H. unfold get_block_state, bind. now rewrite load_mapped.
Qed.

Lemma get_block_size_mapped s h :
  mapped s h 8 = true ->
  get_block_size h s = Ret (Z.land (Mem.load64 (mem s) h) (Z.lnot state_bits)) s.
Proof.
  intros H. unfold get_block_size, bind. now rewrite load_mapped.
Qed.

Ltac heap_mapped :=
  apply mapped_heap; cbn [heap_start brk mem set_mem set_brk]; lia.

Lemma write_header_run s h st size l :
  mapped s h 16 = true ->
  (set_block_state h st ;;; set_block_size h size ;;; store_left_size h l) s
  = Ret tt (set_mem (write_header (mem s) h st size l) s).
Proof.
  intros H.
  assert (H0 : mapped s h 8 = true) by (unfold mapped in *; lia).
  assert (H1 : mapped s (h + off_left_size) 8 = true)
    by (unfold mapped, off_left_size in *; lia).
  unfold bind, store_left_size.
  rewrite set_block_state_mapped by exact H0.
  rewrite set_block_size_mapped by exact H0.
  rewrite store_mapped by exact H1.
  reflexivity.
Qed.

Section WriteHeader.

Variables (m : gmap Z Z) (h st size l : Z).

Lemma write_header_word :
  Mem.load64 (write_header m h st size l) h
  = Word.u64 (Z.lor (Z.land size (Z.lnot state_bits)) (Z.land st state_bits)).
Proof.
  unfold write_header, off_left_size.
  rewrite load64_store64_other by lia.
  rewrite !load64_store64_same.
  rewrite state_of_u64, state_of_word. reflexivity.
Qed.

Lemma write_header_state :
  Z.land (Mem.load64 (write_header m h st size l) h) state_bits
  = Z.land st state_bits.
Proof. rewrite write_header_word, state_of_u64. apply state_of_word. Qed.

Lemma write_header_size :
  Z.land (Mem.load64 (write_header m h st size l) h) (Z.lnot state_bits)
  = Word.u64 (Z.land size (Z.lnot state_bits)).
Proof. rewrite write_header_word, size_of_u64. f_equal. apply size_of_word. Qed.

Lemma write_header_left_size :
  Mem.load64 (write_header m h st size l) (h + off_left_size) = Word.u64 l.
Proof. unfold write_header. apply load64_store64_same. Qed.

Lemma write_header_other b :
  b + 8 <= h \/ h + 16 <= b ->
  Mem.load64 (write_header m h st size l) b = Mem.load64 m b.
Proof.
  intros H. unfold write_header, off_left_size.
  rewrite !load64_store64_other by lia. reflexivity.
Qed.

End WriteHeader.

Lemma write_header_then {B} s h st size l (k : M B) :
  mapped s h 16 = true ->
  (set_block_state h st ;;; set_block_size h size ;;; store_left_size h l ;;; k) s
  = k (set_mem (write_header (mem s) h st size l) s).
Proof.
  intros H.
  assert (H0 : mapped s h 8 = true) by (unfold mapped in *; lia).
  assert (H1 : mapped s (h + off_left_size) 8 = true)
    by (unfold mapped, off_left_size in *; lia).
  unfold bind, store_left_size.
  rewrite set_block_state_mapped by exact H0.
  rewrite set_block_size_mapped by exact H0.
  rewrite store_mapped by exact H1.
  reflexivity.
Qed.

Lemma initialize_fencepost_run s fp l :
  mapped s fp 16 = true ->
  initialize_fencepost fp l s
  = Ret tt (set_mem (write_header (mem s) fp FENCEPOST ALLOC_HEADER_SIZE l) s).
Proof. apply write_header_run. Qed.

(** ** Chunk acquisition *)

Lemma allocate_chunk_run (size : Z) (s : allocator) :
  3 * ALLOC_HEADER_SIZE <= size ->
  0 <= heap_start s <= brk s ->
  brk s + size <= 2 ^ 64 ->
  allocate_chunk size s =
  Ret (brk s + ALLOC_HEADER_SIZE)
    (set_mem
       (write_header
          (write_header
             (write_header (mem s) (brk s) FENCEPOST ALLOC_HEADER_SIZE
                ALLOC_HEADER_SIZE)
             (brk s + size - ALLOC_HEADER_SIZE) FENCEPOST ALLOC_HEADER_SIZE
             (size - 2 * ALLOC_HEADER_SIZE))
          (brk s + ALLOC_HEADER_SIZE) UNALLOCATED
          (size - 2 * ALLOC_HEADER_SIZE) ALLOC_HEADER_SIZE)
       (set_brk (brk s + size) s)).
Proof.
  intros Hsize Hheap Hbrk. unfold ALLOC_HEADER_SIZE in Hsize.
  unfold allocate_chunk, insert_fenceposts, sbrk, get_header_from_offset.
  unfold ALLOC_HEADER_SIZE.
  unfold bind at 1. cbv beta iota.
  rewrite !(u64_small (size - _)) by lia.
  rewrite (u64_small (brk s + 16)) by lia.
  rewrite (u64_small (brk s + (size - 16))) by lia.
  replace (brk s + (size - 16)) with (brk s + size - 16) by lia.
  unfold bind at 1. unfold bind at 1.
  rewrite initialize_fencepost_run by heap_mapped.
  rewrite initialize_fencepost_run by heap_mapped.
  rewrite write_header_then by heap_mapped.
  reflexivity.
Qed.




(** ** The verifier *)

Lemma read_only_ret {A} (a : A) : read_only (ret a).
Proof. intros s b s' H. now inversion H. Qed.

Lemma read_only_bind {A B} (c : M A) (k : A -> M B) :
  read_only c -> (forall a, read_only (k a)) -> read_only (bind c k).
Proof.
  intros Hc Hk s b s' H. unfold bind in H.
  destruct (c s) as [a s1| | |] eqn:E; try discriminate H.
  apply Hc in E. subst s1. exact (Hk a s b s' H).
Qed.

Lemma read_only_load a : read_only (load a).
Proof.
  intros s v s' H. unfold load in H.
  destruct (mapped s a 8); now inversion H.
Qed.

Lemma read_only_get_state : read_only get_state.
Proof. intros s v s' H. now inversion H. Qed.

Lemma read_only_out_of_fuel {A} : read_only (@out_of_fuel A).
Proof. intros s v s' H. discriminate H. Qed.

Ltac read_only :=
  repeat first
    [ apply read_only_ret | apply read_only_load | apply read_only_get_state
    | apply read_only_out_of_fuel
    | apply read_only_bind; [|intros ?]
    | match goal with
      | |- read_only (if ?b then _ else _) => destruct b
      end
    | assumption ].

Lemma read_only_chase fuel : forall freelist slow fast,
  read_only (chase fuel freelist slow fast).
Proof.
  induction fuel as [|k IH]; intros; cbn [chase];
    unfold load_next; read_only. apply IH.
Qed.

Lemma read_only_detect_cycles_from fuel n : forall i,
  read_only (detect_cycles_from fuel n i).
Proof.
  induction n as [|k IH]; intros; cbn [detect_cycles_from];
    unfold load_next; read_only; first [apply read_only_chase | apply IH].
Qed.

Lemma read_only_check_links fuel : forall freelist cur,
  read_only (check_links fuel freelist cur).
Proof.
  induction fuel as [|k IH]; intros; cbn [check_links];
    unfold load_next, load_prev; read_only. apply IH.
Qed.

Lemma read_only_verify_pointers_from fuel n : forall i,
  read_only (verify_pointers_from fuel n i).
Proof.
  induction n as [|k IH]; intros; cbn [verify_pointers_from];
    unfold load_next; read_only; first [apply read_only_check_links | apply IH].
Qed.

(** A free-list check that succeeds has printed nothing and has left
    the state as it was. *)
Lemma verify_freelist_true fuel s s' :
  verify_freelist fuel s = Ret true s' -> s' = s.
Proof.
  unfold verify_freelist, bind at 1. intros H.
  destruct (detect_cycles fuel s) as [cycle s1| | |] eqn:E1; try discriminate H.
  apply read_only_detect_cycles_from in E1. subst s1.
  destruct (negb (cycle =? NULL)).
  - unfold bind, eprintf, modify, load_next, load, print_sublist, ret in H.
    destruct (mapped _ _ _); discriminate H.
  - unfold bind at 1 in H.
    destruct (verify_pointers fuel s) as [invalid s1| | |] eqn:E2;
      try discriminate H.
    apply read_only_verify_pointers_from in E2. subst s1.
    destruct (negb (invalid =? NULL)).
    + discriminate H.
    + now inversion H.
Qed.

(** Once the first header is a fencepost, the loop of [verify_chunk]
    stops before its first iteration: no size is ever compared. *)
Lemma verify_chunk_skips_sizes fuel chunk s :
  get_block_state chunk s = Ret FENCEPOST s ->
  verify_chunk (S fuel) chunk s = Ret NULL s.
Proof.
  intros H. unfold verify_chunk, bind. rewrite H. simpl.
  unfold bind. rewrite H. reflexivity.
Qed.

(** When every registered chunk starts with a fencepost, [verify_tags]
    answers [false]. *)
Lemma verify_tags_never_accepts fuel n : forall i s,
  (forall j, i <= j < i + Z.of_nat n ->
     get_block_state
       (match osChunkList s !! j with Some c => c | None => 0 end) s
     = Ret FENCEPOST s) ->
  verify_tags_from (S fuel) n i s = Ret false s.
Proof.
  induction n as [|k IH]; intros i s H; [reflexivity|].
  cbn [verify_tags_from]. unfold bind at 1. unfold get_state.
  unfold bind at 1. rewrite verify_chunk_skips_sizes by (apply H; lia).
  replace (negb (NULL =? NULL)) with false by reflexivity.
  apply IH. intros j Hj. apply H. lia.
Qed.

(** In a state whose registered chunks all start with a fencepost, as
    they do whenever the invariants hold, [verify] never answers true. *)
Lemma verify_never_accepts_fenceposts fuel s b s' :
  (forall j, 0 <= j < numOsChunks s ->
     get_block_state
       (match osChunkList s !! j with Some c => c | None => 0 end) s
     = Ret FENCEPOST s) ->
  verify (S fuel) s = Ret b s' -> b = false.
Proof.
  intros Hfp H. unfold verify, bind at 1 in H.
  destruct (verify_freelist (S fuel) s) as [[|] s1| | |] eqn:E;
    try discriminate H.
  - apply verify_freelist_true in E. subst s1.
    unfold verify_tags, bind, get_state in H.
    rewrite verify_tags_never_accepts in H by (intros j Hj; apply Hfp; lia).
    now inversion H.
  - now inversion H.
Qed.

(** C1.  The claim is that [verify] answers true exactly when the
    free-list and boundary-tag invariants hold.  On the heap as [init]
    leaves it, and again after [malloc(1024)] followed by [free], all of
    these invariants hold and [verify] answers false; after the left
    fencepost of the chunk has been overwritten the invariants fail and
    [verify] answers true. *)
Theorem verify_rejects_consistent_heap :
  returned (and_then process (fun _ => spec_invariants plenty)) = Some true /\
  returned (and_then process (fun _ => verify plenty)) = Some false /\
  returned (and_then (session plenty [Malloc 1024; Free 0])
              (fun _ => spec_invariants plenty)) = Some true /\
  returned (and_then (session plenty [Malloc 1024; Free 0])
              (fun _ => verify plenty)) = Some false /\
  returned (and_then smashed_fencepost (fun _ => spec_invariants plenty))
    = Some false /\
  returned (and_then smashed_fencepost (fun _ => verify plenty)) = Some true.
Proof. vm_compute. repeat split. Qed.

(** ** Allocation from the catch-all list *)

(** Unlinking the null pointer reads [NULL->next]. *)
Lemma unlink_null_faults s :
  mapped s (NULL + off_next) 8 = false -> unlink_chosen NULL s = Fault.
Proof.
  intros H. unfold unlink_chosen, bind, load_next, load. now rewrite H.
Qed.

(** Whenever the walk of the catch-all list finds no block, the search
    faults instead of reporting an empty class. *)
Lemma search_without_fit_faults fuel size s p hd :
  let sent := sentinel s (N_LISTS - 1) in
  mapped s (NULL + off_next) 8 = false ->
  load_prev sent s = Ret p s ->
  p <> sent ->
  load_next sent s = Ret hd s ->
  first_fit fuel hd size sent s = Ret NULL s ->
  search (S fuel) (N_LISTS - 1) size s = Fault.
Proof.
  intros sent Hnull Hp Hne Hn Hfit. cbn [search].
  replace (N_LISTS - 1 <? N_LISTS) with true by reflexivity.
  unfold bind at 1. unfold get_state. fold sent.
  unfold bind at 1. rewrite Hp.
  replace (negb (p =? sent)) with true by lia.
  unfold bind at 1. rewrite Hn.
  replace (N_LISTS - 1 =? N_LISTS - 1) with true by reflexivity.
  unfold bind at 1. unfold bind at 1. rewrite Hfit.
  now rewrite unlink_null_faults.
Qed.

(** C2.  The claim is that a request which finds the catch-all list
    non-empty but without a large enough block goes on to grow the heap.
    [malloc(5000)] as first call, and [malloc(2000)] after
    [malloc(3000)] has left a single block of 1048 bytes in the
    catch-all list, both end in a memory fault: the walk sets the chosen
    block to null and the unlinking that follows dereferences it. *)
Theorem no_fit_in_catch_all_faults (f : nat) :
  session (S (S f)) [Malloc 5000] = Fault /\
  session (S (S f)) [Malloc 3000; Malloc 2000] = Fault /\
  returned (and_then (session plenty [Malloc 3000])
              (fun _ => freelist plenty (N_LISTS - 1))) = Some [65552] /\
  returned (and_then (session plenty [Malloc 3000])
              (fun _ => get_block_size 65552)) = Some 1048.
Proof. vm_compute. repeat split. Qed.

(** C5.  The claim is that a residue whose class is the catch-all goes
    back between the remembered neighbours of the chosen block.  With
    the catch-all list holding the blocks at 68968 and 65552 in this
    order, [malloc(2880)] chooses the second one, of size 2896 + 488;
    the residue of 488 bytes has class [N_LISTS - 1], the catch-all, and
    ends up at the head of the list, in front of 68968. *)
Theorem residue_488_goes_to_head :
  let before := [Malloc 16; Malloc 600; Malloc 16; Free 1] in
  returned (and_then (session plenty before)
              (fun _ => freelist plenty (N_LISTS - 1))) = Some [68968; 65552] /\
  returned (and_then (session plenty before)
              (fun _ => get_block_size 65552)) = Some (2896 + 488) /\
  block_size_of 2880 = 2896 /\
  list_index 488 = N_LISTS - 1 /\
  returned (and_then (session plenty (before ++ [Malloc 2880]))
              (fun _ => freelist plenty (N_LISTS - 1))) = Some [65552; 68968] /\
  returned (and_then (session plenty (before ++ [Malloc 2880]))
              (fun _ => get_block_size 65552)) = Some 488.
Proof. vm_compute. repeat split. Qed.

(** ** The OS-chunk registry *)

(** C4.  The claim is that [numOsChunks] never exceeds [MAX_OS_CHUNKS].
    After 1024 requests that each find the break moved by other code,
    and so each register a chunk that does not touch the previous one,
    the counter stands at [MAX_OS_CHUNKS + 1]. *)
Theorem registry_overflow :
  option_map numOsChunks
    (final_state (session plenty (Malloc 4040 :: growth_rounds 1024)))
  = Some (MAX_OS_CHUNKS + 1).
Proof. vm_compute. reflexivity. Qed.

(** ** Deallocation *)

(** C3, as amended.  For every non-null pointer whose header is in state
    UNALLOCATED, [my_free] writes "Double Free Detected" to standard
    output, then fails its assertion, which writes "Assertion Failed!"
    to standard error and ends the process with status 1; memory, break,
    registry and [lastFencePost] are those of the state before the
    call. *)
Theorem double_free_reported (s : allocator) (p : Z) :
  p <> NULL ->
  get_block_state (ptr_to_header p) s = Ret UNALLOCATED s ->
  my_free p s = Exit 1 (add_stderr msg_assertion (add_stdout msg_double_free s)).
Proof.
  intros Hp Hst. unfold my_free, deallocate_object.
  destruct (p =? NULL) eqn:E; [lia|].
  unfold bind at 1. rewrite Hst. reflexivity.
Qed.

Lemma double_free_reported_witness :
  my_free 69600 freed_once
  = Exit 1 (add_stderr msg_assertion (add_stdout msg_double_free freed_once)).
Proof.
  refine (double_free_reported freed_once 69600 _ _).
  - discriminate.
  - rewrite get_block_state_mapped by (vm_compute; reflexivity).
    apply (f_equal (fun st => Ret st freed_once)). vm_compute. reflexivity.
Defined.

(** The second [free] of the pointer obtained by [malloc(16)]: the
    message is on standard output, standard error holds the assertion
    text only. *)
Lemma double_free_message_not_on_stderr :
  pointer_of plenty [Malloc 16; Free 0] 0 = 69600 /\
  returned (get_block_state (ptr_to_header 69600) freed_once) = Some UNALLOCATED /\
  option_map stdout (final_state (my_free 69600 freed_once))
    = Some [msg_double_free] /\
  option_map stderr (final_state (my_free 69600 freed_once)) = Some [msg_assertion] /\
  ~ (exists code s',
       my_free 69600 freed_once = Exit code s' /\ In msg_double_free (stderr s')).
Proof.
  assert (E : option_map stderr (final_state (my_free 69600 freed_once))
              = Some [msg_assertion]) by (vm_compute; reflexivity).
  split; [vm_compute; reflexivity|].
  split; [vm_compute; reflexivity|].
  split; [vm_compute; reflexivity|].
  split; [exact E|].
  intros (code & s' & H & Hin).
  rewrite H in E. simpl in E. injection E as E. rewrite E in Hin.
  destruct Hin as [Hin|[]]. vm_compute in Hin. discriminate Hin.
Qed.

(** C6.  The claim is that a block whose coalesced right neighbour was
    in the catch-all list, and whose left neighbour was not, takes the
    right neighbour's place in that list.  The block at 68936 lies
    between the free block at 68904 (32 bytes, in list 1) and the free
    block at 68968 (616 bytes, head of the catch-all list); freeing it
    ends in a memory fault, because the links are read from the block
    that follows the merged one. *)
Theorem free_between_small_left_and_large_right_faults :
  let before :=
    [Malloc 16; Malloc 600; Malloc 16; Malloc 16; Malloc 16; Free 1; Free 3] in
  returned (session plenty before) = Some [69600; 68984; 68952; 68920; 68888] /\
  returned (and_then (session plenty before)
              (fun _ => freelist plenty 1)) = Some [68904] /\
  returned (and_then (session plenty before)
              (fun _ => freelist plenty (N_LISTS - 1))) = Some [68968; 65552] /\
  returned (and_then (session plenty before)
              (fun _ => get_left_header (ptr_to_header 68952))) = Some 68904 /\
  returned (and_then (session plenty before)
              (fun _ => get_right_header (ptr_to_header 68952))) = Some 68968 /\
  session plenty (before ++ [Free 2]) = Fault.
Proof. vm_compute. repeat split. Qed.

(** C8.  The claim is that no two neighbouring blocks are ever both
    UNALLOCATED.  A request of 2^32 + 4 bytes is cut down to a block of
    24 bytes by the [int] arithmetic of [allocate_object]; freeing that
    block stores its [prev] link over the first word of the allocated
    block to its right, which then reads as UNALLOCATED next to the
    freed block. *)
Theorem truncated_request_breaks_coalescing :
  let calls := [Malloc 16; Malloc (2 ^ 32 + 4); Malloc 16; Free 1] in
  returned (session plenty calls) = Some [69600; 69576; 69544] /\
  returned (and_then (session plenty calls)
              (fun _ => get_block_size (ptr_to_header 69576))) = Some 24 /\
  returned (and_then (session plenty calls)
              (fun _ => get_right_header (ptr_to_header 69576)))
    = Some (ptr_to_header 69600) /\
  returned (and_then (session plenty calls)
              (fun _ => adjacent_free (ptr_to_header 69576))) = Some true.
Proof. vm_compute. repeat split. Qed.

(** ** [my_calloc] and [my_realloc] *)

Lemma returned_ret {A} (o : outcome A) (a : A) :
  returned o = Some a -> o = Ret a (state_of o).
Proof.
  destruct o; cbn; intros H; try discriminate H.
  injection H as ->. reflexivity.
Qed.

Lemma allocate_object_zero fuel s : allocate_object (S fuel) 0 s = Ret NULL s.
Proof. reflexivity. Qed.

Lemma memset_nothing p c s : memset p c 0 s = Ret p s.
Proof. unfold memset. simpl. destruct s; reflexivity. Qed.

(** What [my_calloc] does once [my_malloc] has returned. *)
Lemma my_calloc_run (fuel : nat) (nmemb size : Z) (s s1 : allocator) (p : Z) :
  let count := (nmemb * size) mod 2 ^ 64 in
  my_malloc (S fuel) count s = Ret p s1 ->
  count = 0 \/ mapped s1 p count = true ->
  exists s2,
    my_calloc (S fuel) nmemb size s = Ret p s2 /\
    (forall i, 0 <= i < count -> Mem.byte_at (mem s2) (p + i) = 0) /\
    (forall a, a < p \/ p + count <= a ->
               Mem.byte_at (mem s2) a = Mem.byte_at (mem s1) a) /\
    s2 = set_mem (mem s2) s1 /\
    (count = 0 -> p = NULL /\ s1 = s /\ s2 = s).
Proof.
  intros count Hm Hmap.
  assert (Hc : Word.u64 (size * nmemb) = count) by apply u64_mul_comm.
  assert (Hr : 0 <= count < 2 ^ 64) by (apply Z.mod_pos_bound; lia).
  exists (set_mem (Mem.store_bytes (mem s1) p (repeat (0 mod 256) (Z.to_nat count))) s1).
  split; [|split; [|split; [|split]]].
  - unfold my_calloc. rewrite Hc. unfold bind. rewrite Hm.
    unfold memset. destruct Hmap as [H0|H1].
    + rewrite H0. reflexivity.
    + rewrite H1, orb_true_r. reflexivity.
  - cbn [mem set_mem]. intros i Hi.
    rewrite byte_at_store_bytes_in by (rewrite repeat_length; lia).
    apply nth_repeat.
  - cbn [mem set_mem]. intros a Ha.
    apply byte_at_store_bytes_out. rewrite repeat_length. lia.
  - reflexivity.
  - intros H0. rewrite H0 in Hm. unfold my_malloc in Hm.
    rewrite allocate_object_zero in Hm. injection Hm as <- <-.
    rewrite H0. repeat split. destruct s; reflexivity.
Qed.

(** X18.  [my_calloc] asks [my_malloc] for the product of its arguments
    reduced modulo 2^64 and has [memset] zero that many bytes: whenever
    [my_malloc] returns [p] for this count and the count is 0 or the
    bytes are mapped, [my_calloc] returns [p], the [count] bytes from
    [p] are zero and no other byte changes; when the count is 0,
    [my_malloc] and [my_calloc] return the null pointer and leave the
    state as it was. *)
Theorem my_calloc_wraps (fuel : nat) (nmemb size : Z) (s s1 : allocator) (p : Z) :
  let count := (nmemb * size) mod 2 ^ 64 in
  my_malloc (S fuel) count s = Ret p s1 ->
  count = 0 \/ mapped s1 p count = true ->
  exists s2,
    my_calloc (S fuel) nmemb size s = Ret p s2 /\
    (forall i, 0 <= i < count -> Mem.byte_at (mem s2) (p + i) = 0) /\
    (forall a, a < p \/ p + count <= a ->
               Mem.byte_at (mem s2) a = Mem.byte_at (mem s1) a) /\
    s2 = set_mem (mem s2) s1 /\
    (count = 0 -> p = NULL /\ s1 = s /\ s2 = s).
Proof. exact (my_calloc_run fuel nmemb size s s1 p). Qed.

Lemma my_calloc_wraps_witness :
  ((2 ^ 61 + 2) * 8) mod 2 ^ 64 = 16 /\
  exists s2,
    my_calloc plenty (2 ^ 61 + 2) 8 one_block = Ret 69568 s2 /\
    (forall i, 0 <= i < 16 -> Mem.byte_at (mem s2) (69568 + i) = 0).
Proof.
  split; [reflexivity|].
  destruct (my_calloc_wraps 63 (2 ^ 61 + 2) 8 one_block
              (state_of (my_malloc plenty 16 one_block)) 69568)
    as (s2 & H1 & H2 & _).
  - apply returned_ret. vm_compute. reflexivity.
  - right. vm_compute. reflexivity.
  - exists s2. split; [exact H1 | exact H2].
Defined.

(** * Further properties of the code *)

(** ** Request sizes and size classes *)

Lemma to_int_small x : - 2 ^ 31 <= x < 2 ^ 31 -> Word.to_int x = x.
Proof.
  intros H. unfold Word.to_int, Word.modulus32. rewrite Z.mod_small; lia.
Qed.

Lemma block_size_of_rounds (raw : Z) :
  0 < raw <= 2 ^ 31 - 24 ->
  let asked := if raw <=? 8 then 16 else raw in
  let size := block_size_of asked in
  size mod 8 = 0 /\ asked + ALLOC_HEADER_SIZE <= size < asked + ALLOC_HEADER_SIZE + 8
  /\ sizeof_header <= size.
Proof.
  intros Hraw asked size. unfold ALLOC_HEADER_SIZE, sizeof_header.
  assert (Ha : 9 <= asked <= 2 ^ 31 - 24) by (unfold asked; destruct (raw <=? 8) eqn:E; lia).
  unfold size, block_size_of, Word.int_rem, ALLOC_HEADER_SIZE.
  rewrite (to_int_small asked) by lia.
  rewrite Z.rem_mod_nonneg by lia.
  pose proof (Z.mod_pos_bound asked 8 ltac:(lia)) as Hm.
  pose proof (Z.div_mod asked 8 ltac:(lia)) as Hd.
  destruct (asked mod 8 =? 0) eqn:E; cbn [negb].
  - rewrite (u64_small asked) by lia.
    rewrite (u64_small (asked + 16)) by lia.
    rewrite to_int_small by lia.
    repeat split; try lia.
    rewrite Z.add_mod by lia. replace (asked mod 8) with 0 by lia. reflexivity.
  - rewrite (u64_small asked) by lia.
    rewrite (u64_small (8 - asked mod 8)) by lia.
    rewrite (u64_small (asked + _)) by lia.
    rewrite (to_int_small (asked + _)) by lia.
    rewrite (u64_small (asked + _)) by lia.
    rewrite (u64_small (asked + _ + 16)) by lia.
    rewrite to_int_small by lia.
    repeat split; try lia.
    replace (asked + (8 - asked mod 8) + 16) with (8 * (asked / 8 + 3)) by lia.
    rewrite Z.mul_comm. apply Z.mod_mul. lia.
Qed.




(** ** Calls that change memory only *)

Lemma same_frame_refl s : same_frame s s.
Proof. unfold same_frame. destruct s; reflexivity. Qed.

Lemma same_frame_trans s1 s2 s3 :
  same_frame s1 s2 -> same_frame s2 s3 -> same_frame s1 s3.
Proof. unfold same_frame. intros H1 H2. rewrite H2, H1. reflexivity. Qed.

Lemma same_frame_fields s s' :
  same_frame s s' ->
  sentinels s' = sentinels s /\ heap_start s' = heap_start s /\
  brk s' = brk s /\ lastFencePost s' = lastFencePost s /\ base s' = base s /\
  osChunkList s' = osChunkList s /\ numOsChunks s' = numOsChunks s /\
  stdout s' = stdout s /\ stderr s' = stderr s.
Proof. unfold same_frame. intros F. rewrite F. repeat split. Qed.

Lemma same_frame_set_mem m s : same_frame s (set_mem m s).
Proof. reflexivity. Qed.

Lemma bind_ret_inv {A B} (c : M A) (k : A -> M B) s b s' :
  bind c k s = Ret b s' -> exists a s1, c s = Ret a s1 /\ k a s1 = Ret b s'.
Proof.
  unfold bind. destruct (c s) as [a s1| | |]; try discriminate.
  intros H. now exists a, s1.
Qed.

Lemma only_mem_ret {A} (a : A) : only_mem (ret a).
Proof. intros s b s' H. inversion H. apply same_frame_refl. Qed.

Lemma only_mem_bind {A B} (c : M A) (k : A -> M B) :
  only_mem c -> (forall a, only_mem (k a)) -> only_mem (bind c k).
Proof.
  intros Hc Hk s b s' H. apply bind_ret_inv in H as (a & s1 & H1 & H2).
  eapply same_frame_trans; [exact (Hc _ _ _ H1) | exact (Hk _ _ _ _ H2)].
Qed.

Lemma only_mem_load a : only_mem (load a).
Proof.
  intros s v s' H. unfold load in H.
  destruct (mapped s a 8); inversion H. apply same_frame_refl.
Qed.

Lemma only_mem_store a v : only_mem (store a v).
Proof.
  intros s u s' H. unfold store in H.
  destruct (mapped s a 8); inversion H. apply same_frame_set_mem.
Qed.

Lemma only_mem_get_state : only_mem get_state.
Proof. intros s v s' H. inversion H. apply same_frame_refl. Qed.

Lemma only_mem_out_of_fuel {A} : only_mem (@out_of_fuel A).
Proof. intros s v s' H. discriminate H. Qed.

Lemma only_mem_exit {A} code : only_mem (@exit A code).
Proof. intros s v s' H. discriminate H. Qed.

Ltac only_mem_step :=
  first
    [ apply only_mem_ret | apply only_mem_load | apply only_mem_store
    | apply only_mem_get_state | apply only_mem_out_of_fuel
    | apply only_mem_exit
    | apply only_mem_bind; [|intros ?]
    | match goal with
      | |- only_mem (if ?b then _ else _) => destruct b
      | |- only_mem (let '(_, _) := ?p in _) => destruct p
      end
    | assumption ].

Ltac solve_only_mem :=
  unfold set_block_state, set_block_size, get_block_state, get_block_size,
    get_right_header, get_left_header, load_left_size, store_left_size,
    load_next, store_next, load_prev, store_prev;
  repeat only_mem_step.

Ltac frame_of H F :=
  match type of H with
  | ?c ?s = Ret ?a ?s1 =>
      assert (F : same_frame s s1)
        by (refine ((_ : only_mem c) s a s1 H); solve_only_mem)
  end.

Lemma only_mem_first_fit fuel : forall hdr size sent,
  only_mem (first_fit fuel hdr size sent).
Proof.
  induction fuel as [|k IH]; intros; cbn [first_fit]; solve_only_mem. apply IH.
Qed.

Lemma only_mem_unlink_chosen hdr : only_mem (unlink_chosen hdr).
Proof. unfold unlink_chosen. solve_only_mem. Qed.

Lemma only_mem_search fuel : forall i size, only_mem (search fuel i size).
Proof.
  induction fuel as [|k IH]; intros; cbn [search]; solve_only_mem;
    first [apply only_mem_first_fit | apply only_mem_unlink_chosen | apply IH].
Qed.

Lemma only_mem_carve hdr oldNext oldPrev size :
  only_mem (carve hdr oldNext oldPrev size).
Proof. unfold carve. solve_only_mem. Qed.

Lemma my_free_frame p s s' : my_free p s = Ret tt s' -> same_frame s s'.
Proof.
  unfold my_free, deallocate_object.
  destruct (p =? NULL); [intros H; inversion H; apply same_frame_refl|].
  intros H. apply bind_ret_inv in H as (st & s1 & H1 & H).
  frame_of H1 F1.
  destruct (st =? UNALLOCATED).
  { unfold bind, printf, modify, assert, eprintf, exit in H. discriminate H. }
  destruct (st =? FENCEPOST); frame_of H F2;
    exact (same_frame_trans _ _ _ F1 F2).
Qed.

(** X3.  A [my_free] that returns has changed heap bytes at most: the
    break, [lastFencePost], [base], the chunk registry and both output
    streams are as before. *)
Theorem my_free_changes_memory_only (p : Z) (s s' : allocator) :
  my_free p s = Ret tt s' ->
  sentinels s' = sentinels s /\ heap_start s' = heap_start s /\
  brk s' = brk s /\ lastFencePost s' = lastFencePost s /\ base s' = base s /\
  osChunkList s' = osChunkList s /\ numOsChunks s' = numOsChunks s /\
  stdout s' = stdout s /\ stderr s' = stderr s.
Proof. intros H. apply same_frame_fields. exact (my_free_frame _ _ _ H). Qed.

Lemma mapped_in_address_space s a n :
  address_space s -> 0 <= n -> mapped s a n = true -> 0 <= a /\ a + n <= 2 ^ 64.
Proof.
  unfold address_space, mapped, sizeof_header, N_LISTS. intros H Hn Hm. lia.
Qed.

Lemma ptr_of_header h :
  0 <= h < 2 ^ 64 -> ptr_to_header (Word.u64 (h + ALLOC_HEADER_SIZE)) = h.
Proof.
  intros H. unfold ptr_to_header, Word.u64, Word.modulus64, ALLOC_HEADER_SIZE.
  rewrite Zminus_mod_idemp_l. replace (h + 16 - 16) with h by lia.
  apply Z.mod_small. exact H.
Qed.

Lemma set_block_state_inv s h st s' :
  set_block_state h st s = Ret tt s' ->
  mapped s h 8 = true /\
  s' = set_mem (Mem.store64 (mem s) h
         (Z.lor (Z.land (Mem.load64 (mem s) h) (Z.lnot state_bits))
                (Z.land st state_bits))) s.
Proof.
  intros H. destruct (mapped s h 8) eqn:E.
  - rewrite set_block_state_mapped in H by exact E. inversion H. now split.
  - unfold set_block_state, bind, load in H. rewrite E in H. discriminate H.
Qed.

Lemma state_after_set_block_state s h st s' :
  0 <= st < 8 ->
  set_block_state h st s = Ret tt s' -> get_block_state h s' = Ret st s'.
Proof.
  intros Hst H. apply set_block_state_inv in H as (Hm & ->).
  rewrite get_block_state_mapped by exact Hm. f_equal. cbn [mem set_mem].
  rewrite load64_store64_same, state_of_u64, state_of_word.
  apply state_small. exact Hst.
Qed.

Lemma carve_marks_allocated hdr oldNext oldPrev size s p s' :
  carve hdr oldNext oldPrev size s = Ret p s' ->
  address_space s' ->
  get_block_state (ptr_to_header p) s' = Ret ALLOCATED s'.
Proof.
  intros H Hsp. unfold carve in H.
  apply bind_ret_inv in H as (bsz & s1 & _ & H).
  apply bind_ret_inv in H as (hdr' & s2 & _ & H).
  apply bind_ret_inv in H as (right & s3 & _ & H).
  apply bind_ret_inv in H as (sz & s4 & _ & H).
  apply bind_ret_inv in H as ([] & s5 & _ & H).
  apply bind_ret_inv in H as ([] & s6 & Hset & H).
  inversion H; subst p s6; clear H.
  pose proof (set_block_state_inv _ _ _ _ Hset) as (Hm & Es).
  assert (Hm' : mapped s' hdr' 8 = true) by (rewrite Es; exact Hm).
  apply mapped_in_address_space in Hm'; [|exact Hsp|lia].
  rewrite ptr_of_header by lia.
  apply state_after_set_block_state with (s := s5); [unfold ALLOCATED; lia|exact Hset].
Qed.

(** X4.  A non-null pointer returned by [my_malloc] points just after a
    header whose state is ALLOCATED. *)
Theorem my_malloc_returns_allocated_block (fuel : nat) (size : Z) (s s' : allocator) (p : Z) :
  my_malloc fuel size s = Ret p s' ->
  p <> NULL ->
  address_space s' ->
  get_block_state (ptr_to_header p) s' = Ret ALLOCATED s'.
Proof.
  unfold my_malloc. revert size s.
  induction fuel as [|f IH]; intros size s H Hp Hsp; [discriminate H|].
  cbn [allocate_object] in H.
  destruct (size <=? 0); [inversion H; congruence|].
  apply bind_ret_inv in H as ([hdr [oldNext oldPrev]] & s1 & _ & H).
  destruct (hdr =? NULL).
  - apply bind_ret_inv in H as ([] & s2 & _ & H).
    exact (IH _ _ H Hp Hsp).
  - exact (carve_marks_allocated _ _ _ _ _ _ _ H Hsp).
Qed.

(** ** Growth *)

Lemma mem_then_modify f : mem_then f (modify f).
Proof.
  intros s a s' H. inversion H. exists s. split; [apply same_frame_refl|reflexivity].
Qed.

Lemma mem_then_bind f {A B} (c : M A) (k : A -> M B) :
  only_mem c -> (forall a, mem_then f (k a)) -> mem_then f (bind c k).
Proof.
  intros Hc Hk s b s' H. apply bind_ret_inv in H as (a & s1 & H1 & H2).
  destruct (Hk _ _ _ _ H2) as (s2 & F & E).
  exists s2. split; [|exact E].
  eapply same_frame_trans; [exact (Hc _ _ _ H1) | exact F].
Qed.

Ltac solve_mem_then :=
  repeat first
    [ apply mem_then_modify
    | apply mem_then_bind; [solve_only_mem|intros ?] ].

Lemma allocate_chunk_fresh (s : allocator) :
  0 <= heap_start s <= brk s ->
  brk s + ARENA_SIZE <= 2 ^ 64 ->
  exists m1,
    let s1 := set_mem m1 (set_brk (brk s + ARENA_SIZE) s) in
    allocate_chunk ARENA_SIZE s = Ret (brk s + ALLOC_HEADER_SIZE) s1 /\
    get_block_size (brk s + ALLOC_HEADER_SIZE) s1
      = Ret (ARENA_SIZE - 2 * ALLOC_HEADER_SIZE) s1 /\
    load_left_size (brk s + ALLOC_HEADER_SIZE) s1 = Ret ALLOC_HEADER_SIZE s1.
Proof.
  intros Hheap Hbrk.
  rewrite allocate_chunk_run by (unfold ALLOC_HEADER_SIZE, ARENA_SIZE in *; lia).
  unfold ALLOC_HEADER_SIZE, ARENA_SIZE in *.
  eexists. cbv zeta. split; [reflexivity|].
  unfold load_left_size. split.
  - rewrite get_block_size_mapped by heap_mapped. f_equal. cbn [mem set_mem].
    rewrite write_header_size. reflexivity.
  - rewrite load_mapped by (unfold off_left_size; heap_mapped). f_equal.
    cbn [mem set_mem]. rewrite write_header_left_size. reflexivity.
Qed.

Lemma grow_adjacent (s s' : allocator) :
  break_tracked s ->
  brk s + ARENA_SIZE <= 2 ^ 64 ->
  grow s = Ret tt s' ->
  grown_by ARENA_SIZE s s'.
Proof.
  intros (Hh & Hb & Hl) Hbrk H. unfold ALLOC_HEADER_SIZE in *.
  destruct (allocate_chunk_fresh s) as (m1 & Hrun & Hsz & Hls); [lia|lia|].
  cbv zeta in *. set (s1 := set_mem m1 (set_brk (brk s + ARENA_SIZE) s)) in *.
  unfold grow in H. unfold bind at 1 in H. rewrite Hrun in H.
  unfold bind at 1 in H. unfold get_right_header in H at 1.
  unfold bind at 1 in H. rewrite Hsz in H. unfold ret at 1 in H.
  unfold bind at 1 in H. unfold get_left_header in H at 1.
  unfold bind at 1 in H. rewrite Hls in H. unfold ret at 1 in H.
  unfold bind at 1 in H. unfold get_state at 1 in H.
  unfold get_header_from_offset, ALLOC_HEADER_SIZE, ARENA_SIZE in H.
  replace (Word.u64 (Word.u64 (brk s + 16 + Z.opp 16) - 16) =? lastFencePost s1)
    with true in H.
  2:{ symmetry. apply Z.eqb_eq. cbn [lastFencePost s1 set_mem set_brk].
      rewrite Hl. unfold ARENA_SIZE in Hbrk.
      rewrite (u64_small (brk s + 16 + Z.opp 16)) by lia.
      rewrite u64_small by lia. lia. }
  cbv iota in H. unfold ARENA_SIZE in Hbrk.
  rewrite (u64_small (brk s + 16 + (4096 - 2 * 16))) in H by lia.
  match type of H with
  | ?c s1 = _ =>
      assert (T : mem_then (set_lastFencePost (brk s + 16 + (4096 - 2 * 16))) c)
        by solve_mem_then
  end.
  destruct (T _ _ _ H) as (s2 & F & E).
  apply same_frame_fields in F.
  unfold grown_by, ALLOC_HEADER_SIZE, ARENA_SIZE. rewrite E.
  cbn [set_lastFencePost brk sentinels heap_start lastFencePost base
       osChunkList numOsChunks stdout stderr].
  subst s1. cbn in F. intuition (try congruence; try lia).
Qed.

Lemma grown_by_frame s s' :
  break_tracked s -> same_frame s s' -> grown_by 0 s s'.
Proof.
  intros (_ & _ & Hl) F. apply same_frame_fields in F.
  unfold grown_by. intuition (try congruence; try lia).
Qed.

Lemma grown_by_frame_l n s s1 s' :
  same_frame s s1 -> grown_by n s1 s' -> grown_by n s s'.
Proof.
  intros F G. apply same_frame_fields in F.
  unfold grown_by in *. intuition (try congruence; try lia).
Qed.

Lemma grown_by_trans n m s s1 s' :
  grown_by n s s1 -> grown_by m s1 s' -> grown_by (n + m) s s'.
Proof.
  unfold grown_by. intros G1 G2. intuition (try congruence; try lia).
Qed.

Lemma break_tracked_grown n s s' :
  0 <= n -> break_tracked s -> grown_by n s s' -> break_tracked s'.
Proof.
  unfold break_tracked, grown_by, ALLOC_HEADER_SIZE. intros Hn H G. lia.
Qed.

Lemma grown_by_brk n s s' : grown_by n s s' -> brk s' = brk s + n.
Proof. unfold grown_by. intuition. Qed.

Lemma allocate_object_grows fuel : forall raw s p s',
  break_tracked s ->
  brk s + ARENA_SIZE * Z.of_nat fuel <= 2 ^ 64 ->
  allocate_object fuel raw s = Ret p s' ->
  exists k, 0 <= k <= Z.of_nat fuel /\ grown_by (ARENA_SIZE * k) s s'.
Proof.
  induction fuel as [|f IH]; intros raw s p s' Ht Hb H; [discriminate H|].
  cbn [allocate_object] in H.
  destruct (raw <=? 0).
  { inversion H; subst. exists 0. split; [lia|].
    rewrite Z.mul_0_r. apply grown_by_frame; [exact Ht|apply same_frame_refl]. }
  apply bind_ret_inv in H as ([hdr [oldNext oldPrev]] & s1 & H1 & H).
  assert (F1 : same_frame s s1) by exact (only_mem_search _ _ _ _ _ _ H1).
  assert (Ht1 : break_tracked s1).
  { apply (break_tracked_grown 0 s); [lia|exact Ht|].
    apply grown_by_frame; assumption. }
  assert (Eb : brk s1 = brk s) by (apply same_frame_fields in F1; tauto).
  destruct (hdr =? NULL).
  - apply bind_ret_inv in H as ([] & s2 & Hg & H).
    apply grow_adjacent in Hg; [|exact Ht1|unfold ARENA_SIZE in *; lia].
    assert (Ht2 : break_tracked s2).
    { apply (break_tracked_grown ARENA_SIZE s1); [unfold ARENA_SIZE; lia|exact Ht1|exact Hg]. }
    assert (Hb2 : brk s2 + ARENA_SIZE * Z.of_nat f <= 2 ^ 64).
    { rewrite (grown_by_brk _ _ _ Hg). unfold ARENA_SIZE in *. lia. }
    destruct (IH _ _ _ _ Ht2 Hb2 H) as (k & Hk & G).
    exists (1 + k). split; [lia|].
    apply (grown_by_frame_l _ _ _ _ F1).
    replace (ARENA_SIZE * (1 + k)) with (ARENA_SIZE + ARENA_SIZE * k) by lia.
    exact (grown_by_trans _ _ _ _ _ Hg G).
  - exists 0. split; [lia|]. rewrite Z.mul_0_r.
    apply grown_by_frame; [exact Ht|].
    eapply same_frame_trans; [exact F1|exact (only_mem_carve _ _ _ _ _ _ _ H)].
Qed.

(** X5.  When [lastFencePost] is the last header below the break, a
    [my_malloc] that returns has registered no chunk: every growth was
    merged with the previous chunk, the break moved by a whole number of
    arenas, [lastFencePost] is again the last header below it, and
    nothing was printed. *)
Theorem my_malloc_keeps_registry (fuel : nat) (size : Z) (s s' : allocator) (p : Z) :
  break_tracked s ->
  brk s + ARENA_SIZE * Z.of_nat fuel <= 2 ^ 64 ->
  my_malloc fuel size s = Ret p s' ->
  numOsChunks s' = numOsChunks s /\ osChunkList s' = osChunkList s /\
  break_tracked s' /\
  (exists k, 0 <= k <= Z.of_nat fuel /\ brk s' = brk s + ARENA_SIZE * k) /\
  stdout s' = stdout s /\ stderr s' = stderr s.
Proof.
  intros Ht Hb H. unfold my_malloc in H.
  destruct (allocate_object_grows _ _ _ _ _ Ht Hb H) as (k & Hk & G).
  assert (Ht' : break_tracked s').
  { apply (break_tracked_grown (ARENA_SIZE * k) s); [unfold ARENA_SIZE; lia|exact Ht|exact G]. }
  unfold grown_by in G.
  repeat split; try tauto; try apply Ht'. exists k. tauto.
Qed.

Lemma run_grows fuel cs : forall ptrs s ps s',
  forallb own_call cs = true ->
  break_tracked s ->
  brk s + ARENA_SIZE * Z.of_nat fuel * Z.of_nat (length cs) <= 2 ^ 64 ->
  run fuel cs ptrs s = Ret ps s' ->
  exists k, 0 <= k <= Z.of_nat fuel * Z.of_nat (length cs) /\
            grown_by (ARENA_SIZE * k) s s'.
Proof.
  induction cs as [|c rest IH]; intros ptrs s ps s' Hown Ht Hb H.
  - inversion H; subst. exists 0. split; [simpl; lia|]. rewrite Z.mul_0_r.
    apply grown_by_frame; [exact Ht|apply same_frame_refl].
  - cbn [forallb] in Hown. apply andb_prop in Hown as (Hc & Hown).
    cbn [length] in *. rewrite Nat2Z.inj_succ in *.
    destruct c as [size|k|n]; [| |discriminate Hc]; cbn [run] in H.
    + apply bind_ret_inv in H as (p & s1 & H1 & H).
      assert (Hb1 : brk s + ARENA_SIZE * Z.of_nat fuel <= 2 ^ 64)
        by (unfold ARENA_SIZE in *; nia).
      destruct (allocate_object_grows _ _ _ _ _ Ht Hb1 H1) as (k1 & Hk1 & G1).
      pose proof (grown_by_brk _ _ _ G1) as Eb.
      assert (Ht1 : break_tracked s1).
      { apply (break_tracked_grown (ARENA_SIZE * k1) s);
          [unfold ARENA_SIZE; lia|exact Ht|exact G1]. }
      assert (Hb2 : brk s1 + ARENA_SIZE * Z.of_nat fuel * Z.of_nat (length rest)
                    <= 2 ^ 64) by (unfold ARENA_SIZE in *; nia).
      destruct (IH _ _ _ _ Hown Ht1 Hb2 H) as (k2 & Hk2 & G2).
      exists (k1 + k2). split; [nia|].
      replace (ARENA_SIZE * (k1 + k2)) with (ARENA_SIZE * k1 + ARENA_SIZE * k2) by lia.
      exact (grown_by_trans _ _ _ _ _ G1 G2).
    + apply bind_ret_inv in H as ([] & s1 & H1 & H).
      assert (F : same_frame s s1).
      { exact (my_free_frame _ _ _ H1). }
      assert (Ht1 : break_tracked s1).
      { apply (break_tracked_grown 0 s); [lia|exact Ht|].
        apply grown_by_frame; assumption. }
      assert (Eb : brk s1 = brk s) by (apply same_frame_fields in F; tauto).
      assert (Hb2 : brk s1 + ARENA_SIZE * Z.of_nat fuel * Z.of_nat (length rest)
                    <= 2 ^ 64) by (unfold ARENA_SIZE in *; nia).
      destruct (IH _ _ _ _ Hown Ht1 Hb2 H) as (k2 & Hk2 & G2).
      exists k2. split; [nia|]. exact (grown_by_frame_l _ _ _ _ F G2).
Qed.

(** ** Initialisation *)

Lemma mapped_static s a n :
  sentinels s <= a -> a + n <= sentinels s + sizeof_header * N_LISTS ->
  mapped s a n = true.
Proof. unfold mapped. intros H1 H2. lia. Qed.

Ltac static_mapped :=
  apply mapped_static;
  unfold sentinel, sizeof_header, N_LISTS, off_next, off_prev in *;
  cbn [sentinels set_mem]; lia.

Lemma init_sentinels_run n : forall i s,
  0 <= i -> i + Z.of_nat n <= N_LISTS ->
  exists m',
    init_sentinels n i s = Ret tt (set_mem m' s) /\
    (forall j, i <= j < i + Z.of_nat n ->
       Mem.load64 m' (sentinel s j + off_next) = Word.u64 (sentinel s j) /\
       Mem.load64 m' (sentinel s j + off_prev) = Word.u64 (sentinel s j)) /\
    (forall a, a + 8 <= sentinel s i + off_next \/
               sentinel s (i + Z.of_nat n) <= a ->
       Mem.load64 m' a = Mem.load64 (mem s) a).
Proof.
  induction n as [|k IH]; intros i s Hi Hn.
  - exists (mem s). split; [|split].
    + cbn [init_sentinels]. unfold ret. destruct s; reflexivity.
    + intros j Hj. lia.
    + reflexivity.
  - rewrite Nat2Z.inj_succ in *. cbn [init_sentinels].
    unfold bind at 1. unfold get_state.
    unfold bind at 1. unfold store_next.
    rewrite store_mapped by static_mapped.
    unfold bind at 1. unfold store_prev.
    rewrite store_mapped by static_mapped.
    cbn [mem set_mem].
    set (m2 := Mem.store64 (Mem.store64 (mem s) _ _) _ _).
    destruct (IH (i + 1) (set_mem m2 (set_mem (Mem.store64 (mem s) (sentinel s i + off_next) (sentinel s i)) s)))
      as (m' & Hrun & Hin & Hout); [lia|lia|].
    exists m'. split; [|split].
    + rewrite Hrun. reflexivity.
    + intros j Hj. destruct (Z.eq_dec j i) as [->|Hne].
      * change (sentinel (set_mem _ _) ?x) with (sentinel s x) in Hout.
        cbn [mem set_mem] in Hout.
        rewrite !Hout by (unfold sentinel, sizeof_header, off_next, off_prev; lia).
        unfold m2. split.
        -- rewrite load64_store64_other by (unfold off_next, off_prev; lia).
           apply load64_store64_same.
        -- apply load64_store64_same.
      * apply Hin. lia.
    + intros a Ha.
      change (sentinel (set_mem _ _) ?x) with (sentinel s x) in Hout.
      cbn [mem set_mem] in Hout.
      rewrite Hout.
      * unfold m2.
        rewrite !load64_store64_other
          by (unfold sentinel, sizeof_header, off_next, off_prev in *; lia).
        reflexivity.
      * replace (i + 1 + Z.of_nat k) with (i + Z.succ (Z.of_nat k)) by lia.
        unfold sentinel, sizeof_header, off_next, off_prev in *. lia.
Qed.

Ltac simpl_state :=
  cbn [mem sentinels heap_start brk lastFencePost base osChunkList
       numOsChunks stdout stderr set_mem set_brk set_lastFencePost set_base
       set_osChunk set_numOsChunks loaded].

Lemma init_run (sent brk0 : Z) :
  0 <= sent -> sent + sizeof_header * N_LISTS <= 2 ^ 64 ->
  0 <= brk0 -> brk0 + ARENA_SIZE <= 2 ^ 64 ->
  sent + sizeof_header * N_LISTS <= brk0 \/ brk0 + ARENA_SIZE <= sent ->
  exists s, started sent brk0 = Ret tt s /\ initial_heap sent brk0 s.
Proof.
  unfold initial_heap.
  unfold sizeof_header, N_LISTS, ARENA_SIZE, ALLOC_HEADER_SIZE.
  intros Hs Hs' Hb Hb' Hdisj.
  unfold started, init.
  unfold bind at 1.
  rewrite allocate_chunk_run
    by (unfold ALLOC_HEADER_SIZE, ARENA_SIZE; cbn [brk heap_start loaded]; lia).
  simpl_state.
  unfold ARENA_SIZE, ALLOC_HEADER_SIZE, get_header_from_offset.
  replace (Word.u64 (brk0 + 16 + - (16))) with brk0 by (rewrite u64_small; lia).
  replace (Word.u64 (brk0 + 16 - 16)) with brk0 by (rewrite u64_small; lia).
  set (m1 := write_header _ (brk0 + 16) _ _ _).
  unfold bind at 1. unfold insert_os_chunk at 1, bind at 1, get_state at 1.
  simpl_state.
  replace (0 <? MAX_OS_CHUNKS) with true by reflexivity.
  unfold modify at 1. simpl_state.
  unfold bind at 1.
  rewrite get_block_size_mapped by (apply mapped_heap; simpl_state; lia).
  simpl_state.
  assert (Hsz : Z.land (Mem.load64 m1 (brk0 + 16)) (Z.lnot state_bits) = 4064).
  { unfold m1. rewrite write_header_size. reflexivity. }
  rewrite Hsz.
  replace (Word.u64 (brk0 + 16 + 4064)) with (brk0 + 4080) by (rewrite u64_small; lia).
  unfold bind at 1, modify at 1. unfold bind at 1, modify at 1.
  simpl_state.
  unfold bind at 1.
  match goal with
  | |- context [init_sentinels ?n ?i ?st] =>
      destruct (init_sentinels_run n i st) as (m2 & Hrun & Hin & Hout);
        [lia|unfold N_LISTS; simpl; lia|rewrite Hrun]
  end.
  unfold bind at 1, get_state at 1.
  unfold sentinel in *.
  cbv beta iota delta
    [mem sentinels heap_start brk lastFencePost base osChunkList
     numOsChunks stdout stderr set_mem set_brk set_lastFencePost set_base
     set_osChunk set_numOsChunks loaded] in Hin, Hout.
  simpl_state.
  unfold N_LISTS, sizeof_header in *.
  unfold store_next, store_prev, load_next, load_prev, off_next, off_prev in *.
  unfold bind at 1. rewrite store_mapped by (apply mapped_static; unfold sizeof_header, N_LISTS; simpl_state; lia).
  unfold bind at 1. rewrite store_mapped by (apply mapped_static; unfold sizeof_header, N_LISTS; simpl_state; lia).
  unfold bind at 1. rewrite store_mapped by (apply mapped_heap; simpl_state; lia).
  rewrite store_mapped by (apply mapped_heap; simpl_state; lia).
  simpl_state.
  set (last := sent + 32 * (59 - 1)) in *.
  set (mf := Mem.store64 _ (brk0 + 16 + 24) last).
  assert (Hm2 : forall a, a + 8 <= sent + 16 \/ sent + 32 * 59 <= a ->
                          Mem.load64 m2 a = Mem.load64 m1 a).
  { intros a Ha. rewrite Hout; [reflexivity|].
    rewrite Z2Nat.id by lia. lia. }
  assert (Mhdr : forall a, brk0 <= a -> a + 8 <= brk0 + 32 \/ brk0 + 48 <= a ->
                           a + 8 <= brk0 + 4096 ->
                           Mem.load64 mf a = Mem.load64 m1 a).
  { intros a Ha1 Ha2 Ha3. unfold mf.
    rewrite !load64_store64_other by (unfold last; lia).
    apply Hm2. lia. }
  assert (Msent : forall j, 0 <= j < 59 - 1 ->
            Mem.load64 mf (sent + 32 * j + 16) = sent + 32 * j /\
            Mem.load64 mf (sent + 32 * j + 24) = sent + 32 * j).
  { intros j Hj. unfold mf.
    rewrite !load64_store64_other by (unfold last; lia).
    destruct (Hin j) as (E1 & E2); [rewrite Z2Nat.id by lia; lia|].
    rewrite E1, E2. rewrite u64_small by lia. split; reflexivity. }
  assert (Mlast : Mem.load64 mf (last + 16) = brk0 + 16 /\
                  Mem.load64 mf (last + 24) = brk0 + 16).
  { unfold mf. split.
    - rewrite !load64_store64_other by (unfold last; lia).
      rewrite load64_store64_same. apply u64_small. lia.
    - rewrite !load64_store64_other by (unfold last; lia).
      rewrite load64_store64_same. apply u64_small. lia. }
  assert (Mblk : Mem.load64 mf (brk0 + 16 + 16) = last /\
                 Mem.load64 mf (brk0 + 16 + 24) = last).
  { unfold mf. split.
    - rewrite !load64_store64_other by (unfold last; lia).
      rewrite load64_store64_same. apply u64_small. unfold last. lia.
    - rewrite load64_store64_same. apply u64_small. unfold last. lia. }
  clearbody mf. clear Hrun Hin Hout Hm2.
  cbv beta iota delta
    [mem sentinels heap_start brk lastFencePost base osChunkList
     numOsChunks stdout stderr set_mem set_brk set_lastFencePost set_base
     set_osChunk set_numOsChunks loaded].
  eexists. split; [reflexivity|].
  cbv beta iota delta
    [mem sentinels heap_start brk lastFencePost base osChunkList
     numOsChunks stdout stderr].
  repeat (split; [first [reflexivity | lia | apply lookup_insert_eq]|]).
  split.
  { intros i Hi. destruct (Msent i Hi) as (E1 & E2).
    rewrite !load_mapped
      by (apply mapped_static; unfold sizeof_header, N_LISTS; cbn [sentinels]; lia).
    cbn [mem]. rewrite E1, E2. split; reflexivity. }
  destruct Mlast as (E1 & E2). destruct Mblk as (E3 & E4).
  unfold last in *. clear last.
  rewrite !load_mapped
    by (first [ apply mapped_static; unfold sizeof_header, N_LISTS, last;
                cbn [sentinels]; lia
              | apply mapped_heap; cbn [heap_start brk]; lia ]).
  cbn [mem]. rewrite E1, E2, E3, E4.
  rewrite !get_block_state_mapped by (apply mapped_heap; cbn [heap_start brk]; lia).
  rewrite !get_block_size_mapped by (apply mapped_heap; cbn [heap_start brk]; lia).
  cbn [mem].
  rewrite !Mhdr by lia.
  unfold m1.
  rewrite write_header_state, write_header_size.
  rewrite (write_header_other _ (brk0 + 16)) by (unfold off_left_size; lia).
  rewrite (write_header_other _ (brk0 + 16)) by (unfold off_left_size; lia).
  rewrite (write_header_other _ (brk0 + 4096 - 16)) by (unfold off_left_size; lia).
  replace (brk0 + 4080) with (brk0 + 4096 - 16) by lia.
  rewrite !write_header_state.
  repeat split.
Qed.

(** X6.  [init] returns in every process whose sentinel array and first
    arena fit the address space without overlapping, and leaves the heap
    described by [initial_heap]. *)
Theorem init_establishes_heap (sent brk0 : Z) :
  0 <= sent -> sent + sizeof_header * N_LISTS <= 2 ^ 64 ->
  0 <= brk0 -> brk0 + ARENA_SIZE <= 2 ^ 64 ->
  sent + sizeof_header * N_LISTS <= brk0 \/ brk0 + ARENA_SIZE <= sent ->
  exists s, started sent brk0 = Ret tt s /\ initial_heap sent brk0 s.
Proof. exact (init_run sent brk0). Qed.

Lemma init_establishes_heap_witness :
  exists s, started 4096 65536 = Ret tt s /\ initial_heap 4096 65536 s.
Proof.
  apply init_establishes_heap;
    unfold sizeof_header, N_LISTS, ARENA_SIZE; lia.
Defined.

(** X7.  As long as only the allocator moves the break, every session of
    [my_malloc] and [my_free] calls that returns ends with the single
    chunk that [init] registered, and with [lastFencePost] just below the
    break. *)
Theorem own_break_keeps_one_chunk (sent brk0 : Z) (fuel : nat) (cs : list call)
    (ps : list Z) (s' : allocator) :
  0 <= sent -> sent + sizeof_header * N_LISTS <= 2 ^ 64 ->
  0 <= brk0 ->
  sent + sizeof_header * N_LISTS <= brk0 \/ brk0 + ARENA_SIZE <= sent ->
  forallb own_call cs = true ->
  brk0 + ARENA_SIZE + ARENA_SIZE * Z.of_nat fuel * Z.of_nat (length cs) <= 2 ^ 64 ->
  and_then (started sent brk0) (fun _ => run fuel cs []) = Ret ps s' ->
  numOsChunks s' = 1 /\ osChunkList s' !! 0 = Some brk0 /\
  lastFencePost s' = brk s' - ALLOC_HEADER_SIZE.
Proof.
  intros Hs Hs' Hb Hdisj Hown Hbound H.
  destruct (init_run sent brk0) as (s0 & E & I); try assumption.
  { unfold ARENA_SIZE in *. nia. }
  rewrite E in H. cbn [and_then] in H.
  destruct I as (_ & I2 & I3 & I4 & _ & I6 & I7 & _).
  assert (Ht : break_tracked s0).
  { unfold break_tracked, ARENA_SIZE, ALLOC_HEADER_SIZE in *. lia. }
  assert (Hb0 : brk s0 + ARENA_SIZE * Z.of_nat fuel * Z.of_nat (length cs)
                <= 2 ^ 64) by (rewrite I3; lia).
  destruct (run_grows _ _ _ _ _ _ Hown Ht Hb0 H) as (k & Hk & G).
  unfold grown_by in G. intuition congruence.
Qed.

(** ** Neighbours *)

(** X8.  [get_left_header] undoes [get_right_header] when the right
    neighbour's [left_size] is the size of the block. *)
Theorem left_of_right_neighbour (h : Z) (s : allocator) (size r : Z) :
  0 <= h < 2 ^ 64 ->
  get_block_size h s = Ret size s ->
  get_right_header h s = Ret r s ->
  load_left_size r s = Ret size s ->
  get_left_header r s = Ret h s.
Proof.
  intros Hh Hsz Hr Hl. unfold get_right_header, bind in Hr. rewrite Hsz in Hr.
  unfold ret in Hr. injection Hr as E. subst r.
  unfold get_left_header, bind. rewrite Hl. unfold ret. f_equal.
  unfold get_header_from_offset, Word.u64, Word.modulus64.
  rewrite Zplus_mod_idemp_l. replace (h + size + - size) with h by lia.
  apply Z.mod_small. exact Hh.
Qed.

(** ** The registry helper *)

(** X9.  [insert_os_chunk] never writes past the registry: below
    [MAX_OS_CHUNKS] it appends the chunk and counts it, at
    [MAX_OS_CHUNKS] it changes nothing. *)
Theorem insert_os_chunk_bounded (hdr : Z) (s : allocator) :
  0 <= numOsChunks s <= MAX_OS_CHUNKS ->
  exists s',
    insert_os_chunk hdr s = Ret tt s' /\
    0 <= numOsChunks s' <= MAX_OS_CHUNKS /\
    (numOsChunks s < MAX_OS_CHUNKS ->
       numOsChunks s' = numOsChunks s + 1 /\
       osChunkList s' !! numOsChunks s = Some hdr /\
       (forall i, i <> numOsChunks s -> osChunkList s' !! i = osChunkList s !! i)) /\
    (numOsChunks s = MAX_OS_CHUNKS -> s' = s).
Proof.
  unfold MAX_OS_CHUNKS. intros H.
  unfold insert_os_chunk, bind, get_state, MAX_OS_CHUNKS.
  destruct (numOsChunks s <? 1024) eqn:E.
  - eexists. split; [reflexivity|]. cbn.
    rewrite u64_small by lia. split; [lia|]. split; [|lia].
    intros _. split; [reflexivity|]. split.
    + apply lookup_insert_eq.
    + intros i Hi. apply lookup_insert_ne. congruence.
  - exists s. split; [reflexivity|]. split; [lia|]. split; [lia|reflexivity].
Qed.

(** ** Edge cases of the public calls *)

(** X10.  [my_free] of the null pointer, or of a pointer whose header is
    a fencepost, returns and changes nothing. *)
Theorem my_free_ignores_null_and_fenceposts (p : Z) (s : allocator) :
  p = NULL \/ get_block_state (ptr_to_header p) s = Ret FENCEPOST s ->
  my_free p s = Ret tt s.
Proof.
  intros [->|H]; [reflexivity|].
  unfold my_free, deallocate_object. destruct (p =? NULL); [reflexivity|].
  unfold bind. rewrite H. reflexivity.
Qed.

Lemma memcpy_nothing dst src s : memcpy dst src 0 s = Ret dst s.
Proof. unfold memcpy. simpl. destruct s; reflexivity. Qed.

(** X11.  [my_realloc(ptr, 0)] is [my_free(ptr)] followed by the return
    of the null pointer. *)
Theorem my_realloc_to_zero_frees (fuel : nat) (ptr : Z) (s : allocator) :
  my_realloc (S fuel) ptr 0 s = and_then (my_free ptr s) (fun _ => ret NULL).
Proof.
  unfold my_realloc, my_malloc. unfold bind at 1.
  rewrite allocate_object_zero. unfold bind at 1. rewrite memcpy_nothing.
  unfold bind, and_then. destruct (my_free ptr s); reflexivity.
Qed.

(** X12.  [my_realloc(NULL, size)] with a nonzero size faults whenever
    the allocation succeeds and the [size] bytes at address 0 are not
    mapped: the copy reads them. *)
Theorem my_realloc_of_null_faults (fuel : nat) (size : Z) (s s1 : allocator) (p : Z) :
  my_malloc fuel size s = Ret p s1 ->
  size <> 0 ->
  mapped s1 NULL size = false ->
  my_realloc fuel NULL size s = Fault.
Proof.
  intros Hm Hsz Hnull. unfold my_realloc. unfold bind at 1. rewrite Hm.
  unfold bind at 1. unfold memcpy. rewrite Hnull, andb_false_r.
  replace (size =? 0) with false by lia. reflexivity.
Qed.

(** ** First fit *)

(** X13.  On a catch-all list whose blocks are linked one to the next
    and back to the sentinel, the [while] loop of [allocate_object]
    yields the first block at least as large as the request, and null
    when there is none; it changes nothing. *)
Theorem first_fit_takes_first_fitting (fuel : nat) (size sent : Z)
    (s : allocator) (b sz : Z) (rest : list (Z * Z)) :
  listed s sent ((b, sz) :: rest) ->
  (length rest < fuel)%nat ->
  first_fit fuel b size sent s = Ret (first_fitting size ((b, sz) :: rest)) s.
Proof.
  revert fuel b sz. induction rest as [|[b' sz'] rest IH]; intros fuel b sz H Hf.
  - destruct fuel as [|f]; [simpl in Hf; lia|].
    destruct H as (Hb & Hsz & Hn & _). cbn [first_fit first_fitting].
    unfold bind at 1. rewrite Hsz.
    destruct (sz <? Word.u64 size); [|reflexivity].
    unfold bind. rewrite Hn. now rewrite Z.eqb_refl.
  - destruct fuel as [|f]; [simpl in Hf; lia|].
    destruct H as (Hb & Hsz & Hn & Hrest). cbn [first_fit].
    unfold bind at 1. rewrite Hsz.
    change (first_fitting size ((b, sz) :: (b', sz') :: rest))
      with (if sz <? Word.u64 size
            then first_fitting size ((b', sz') :: rest) else b).
    destruct (sz <? Word.u64 size); [|reflexivity].
    unfold bind. rewrite Hn.
    destruct Hrest as (Hb' & Hrest).
    replace (b' =? sent) with false by lia.
    apply IH; [split; assumption|simpl in Hf; lia].
Qed.

(** ** The free-list checks on well-formed lists *)

Section Ring.

Variables (s : allocator) (sent : Z) (l : list Z).
Hypothesis R : ring s sent l.

Local Abbreviation cyc := (sent :: l).
Local Abbreviation N := (length (sent :: l)).
Local Abbreviation node k := (nth (k mod N) (sent :: l) 0).

Lemma ring_pos : (0 < N)%nat.
Proof. simpl. lia. Qed.

Lemma node_0 : node 0 = sent.
Proof. rewrite Nat.Div0.mod_0_l. reflexivity. Qed.

Lemma node_N : node N = sent.
Proof. rewrite Nat.Div0.mod_same. reflexivity. Qed.

Lemma succ_mod k : (S (k mod N) mod N = S k mod N)%nat.
Proof.
  replace (S (k mod N)) with (k mod N + 1)%nat by lia.
  replace (S k) with (k + 1)%nat by lia.
  apply Nat.Div0.add_mod_idemp_l.
Qed.

Lemma node_next k : load_next (node k) s = Ret (node (S k)) s.
Proof.
  destruct R as (_ & H).
  destruct (H (k mod N)%nat) as (E & _).
  { apply Nat.mod_upper_bound. pose proof ring_pos. lia. }
  rewrite succ_mod in E. exact E.
Qed.

Lemma node_prev k : load_prev (node (S k)) s = Ret (node k) s.
Proof.
  destruct R as (_ & H).
  destruct (H (k mod N)%nat) as (_ & E).
  { apply Nat.mod_upper_bound. pose proof ring_pos. lia. }
  rewrite succ_mod in E. exact E.
Qed.

Lemma node_inj j k : node j = node k -> (j mod N = k mod N)%nat.
Proof.
  destruct R as (D & _). intros E.
  pose proof ring_pos.
  apply (proj1 (NoDup_nth cyc 0) D); try (apply Nat.mod_upper_bound; lia).
  exact E.
Qed.

Lemma chase_ring d : forall k fuel,
  (k + d = N)%nat -> (1 <= k)%nat -> (d < fuel)%nat ->
  chase fuel sent (node k) (node (2 * k)) s = Ret NULL s.
Proof.
  pose proof ring_pos as HN.
  induction d as [|d IH]; intros k fuel Hk H1 Hf;
    (destruct fuel as [|f]; [lia|]); cbn [chase].
  - replace k with N by lia.
    replace (node (2 * N)) with sent.
    + rewrite Z.eqb_refl. reflexivity.
    + rewrite Nat.Div0.mod_mul. reflexivity.
  - destruct (node (2 * k) =? sent) eqn:Efast; [reflexivity|]. cbn [negb].
    assert (Hne : ((2 * k) mod N <> 0)%nat).
    { intros E0. apply Z.eqb_neq in Efast. apply Efast.
      rewrite E0. reflexivity. }
    destruct (node k =? node (2 * k)) eqn:Eslow.
    { exfalso. apply Z.eqb_eq in Eslow. apply node_inj in Eslow.
      rewrite (Nat.mod_small k) in Eslow by lia.
      pose proof (Nat.div_mod (2 * k) N ltac:(lia)) as Hdm.
      rewrite <- Eslow in Hdm.
      assert (k = N * (2 * k / N))%nat by lia.
      destruct (2 * k / N)%nat; nia. }
    unfold bind at 1. rewrite node_next.
    unfold bind at 1. rewrite node_next.
    unfold bind at 1. rewrite node_next.
    replace (S (S (2 * k))) with (2 * S k)%nat by lia.
    apply IH; lia.
Qed.

Lemma check_links_ring d : forall k fuel,
  (k + d = N)%nat -> (1 <= k)%nat -> (d < fuel)%nat ->
  check_links fuel sent (node k) s = Ret NULL s.
Proof.
  pose proof ring_pos as HN.
  induction d as [|d IH]; intros k fuel Hk H1 Hf;
    (destruct fuel as [|f]; [lia|]); cbn [check_links].
  - replace k with N by lia. rewrite node_N, Z.eqb_refl. reflexivity.
  - destruct (node k =? sent) eqn:Ecur.
    { exfalso. apply Z.eqb_eq in Ecur.
      assert (E' : node k = node 0) by (rewrite node_0; exact Ecur).
      clear Ecur. rename E' into Ecur.
      apply node_inj in Ecur. rewrite Nat.Div0.mod_0_l in Ecur.
      rewrite Nat.mod_small in Ecur by lia. lia. }
    cbn [negb].
    unfold bind at 1. rewrite node_next.
    unfold bind at 1. rewrite node_prev. rewrite Z.eqb_refl. cbn [negb].
    destruct k as [|k']; [lia|].
    unfold bind at 1. rewrite node_prev.
    unfold bind at 1. rewrite node_next. rewrite Z.eqb_refl. cbn [negb].
    unfold bind at 1. rewrite node_next.
    apply IH; lia.
Qed.

Lemma detect_cycles_ring fuel :
  (length l < fuel)%nat ->
  (slow <- load_next sent ;;
   f1 <- load_next sent ;;
   fast <- load_next f1 ;;
   chase fuel sent slow fast) s = Ret NULL s.
Proof.
  intros Hf. pose proof (node_next 0) as E0. rewrite node_0 in E0.
  unfold bind at 1. rewrite E0.
  unfold bind at 1. rewrite E0.
  unfold bind at 1. rewrite node_next.
  apply (chase_ring (N - 1) 1); simpl; lia.
Qed.

Lemma verify_pointers_ring fuel :
  (length l < fuel)%nat ->
  (cur <- load_next sent ;; check_links fuel sent cur) s = Ret NULL s.
Proof.
  intros Hf. pose proof (node_next 0) as E0. rewrite node_0 in E0.
  unfold bind at 1. rewrite E0.
  apply (check_links_ring (N - 1) 1); simpl; lia.
Qed.

End Ring.

Lemma detect_cycles_from_rings fuel s n : forall i,
  (forall j, (j < n)%nat ->
     exists l, ring s (sentinel s (i + Z.of_nat j)) l /\ (length l < fuel)%nat) ->
  detect_cycles_from fuel n i s = Ret NULL s.
Proof.
  induction n as [|n IH]; intros i H; [reflexivity|].
  cbn [detect_cycles_from]. unfold bind at 1, get_state at 1.
  destruct (H 0%nat ltac:(lia)) as (l & R & Hl). rewrite Z.add_0_r in R.
  pose proof (detect_cycles_ring s _ l R fuel Hl) as E.
  unfold bind in E |- *.
  destruct (load_next (sentinel s i) s) as [a1 s1| | |]; try discriminate E.
  destruct (load_next (sentinel s i) s1) as [a2 s2| | |]; try discriminate E.
  destruct (load_next a2 s2) as [a3 s3| | |]; try discriminate E.
  rewrite E. cbn [negb Z.eqb NULL]. 
  apply IH. intros j Hj. destruct (H (S j) ltac:(lia)) as (l' & R' & Hl').
  exists l'. split; [|exact Hl'].
  replace (i + 1 + Z.of_nat j) with (i + Z.of_nat (S j)) by lia. exact R'.
Qed.

Lemma verify_pointers_from_rings fuel s n : forall i,
  (forall j, (j < n)%nat ->
     exists l, ring s (sentinel s (i + Z.of_nat j)) l /\ (length l < fuel)%nat) ->
  verify_pointers_from fuel n i s = Ret NULL s.
Proof.
  induction n as [|n IH]; intros i H; [reflexivity|].
  cbn [verify_pointers_from]. unfold bind at 1, get_state at 1.
  destruct (H 0%nat ltac:(lia)) as (l & R & Hl). rewrite Z.add_0_r in R.
  pose proof (verify_pointers_ring s _ l R fuel Hl) as E.
  unfold bind in E |- *.
  destruct (load_next (sentinel s i) s) as [a1 s1| | |]; try discriminate E.
  rewrite E. cbn [negb Z.eqb NULL].
  apply IH. intros j Hj. destruct (H (S j) ltac:(lia)) as (l' & R' & Hl').
  exists l'. split; [|exact Hl'].
  replace (i + 1 + Z.of_nat j) with (i + Z.of_nat (S j)) by lia. exact R'.
Qed.

(** X14.  [verify_freelist] returns [true], and changes nothing, when
    every free list is a circular doubly linked list of distinct
    nodes. *)
Theorem verify_freelist_accepts_rings (fuel : nat) (s : allocator) :
  (forall i, (i < Z.to_nat N_LISTS)%nat ->
     exists l, ring s (sentinel s (Z.of_nat i)) l /\ (length l < fuel)%nat) ->
  verify_freelist fuel s = Ret true s.
Proof.
  intros H. unfold verify_freelist, detect_cycles, verify_pointers.
  unfold bind at 1. rewrite detect_cycles_from_rings by exact H.
  cbn [negb Z.eqb NULL].
  unfold bind at 1. rewrite verify_pointers_from_rings by exact H.
  reflexivity.
Qed.

(** ** The search over empty classes *)

(** X15.  When the free lists from [i] on are all empty, the [for] loop
    of [allocate_object] started at [i] finds no block and changes
    nothing. *)
Theorem search_skips_empty_classes (fuel : nat) (size : Z) (s : allocator) :
  forall i,
  0 <= i <= N_LISTS ->
  (Z.to_nat (N_LISTS - i) < fuel)%nat ->
  (forall j, i <= j < N_LISTS ->
     load_prev (sentinel s j) s = Ret (sentinel s j) s) ->
  search fuel i size s = Ret (NULL, (NULL, NULL)) s.
Proof.
  induction fuel as [|f IH]; intros i Hi Hf Hempty; [lia|].
  cbn [search]. destruct (i <? N_LISTS) eqn:E; [|reflexivity].
  unfold bind at 1, get_state at 1.
  unfold bind at 1. rewrite Hempty by lia.
  rewrite Z.eqb_refl. cbn [negb].
  apply IH; [lia|lia|intros j Hj; apply Hempty; lia].
Qed.

(** ** Bytes outside a new chunk's headers *)




(** ** Well-formed bytes *)

Lemma bytes_ok_empty : bytes_ok ∅.
Proof. intros a. unfold Mem.byte_at. rewrite lookup_empty. lia. Qed.

Lemma encode_bytes n : forall v, Forall (fun b => 0 <= b < 256) (Mem.encode n v).
Proof.
  induction n as [|k IH]; intros v; cbn [Mem.encode]; constructor.
  - apply Z.mod_pos_bound. lia.
  - apply IH.
Qed.

Lemma bytes_ok_store_bytes bs : forall m a,
  Forall (fun b => 0 <= b < 256) bs -> bytes_ok m ->
  bytes_ok (Mem.store_bytes m a bs).
Proof.
  induction bs as [|b rest IH]; intros m a Hbs Hm; [exact Hm|].
  cbn [Mem.store_bytes]. inversion Hbs; subst. apply IH; [assumption|].
  intros x. rewrite byte_at_insert. destruct (decide (a = x)); [assumption|apply Hm].
Qed.

Lemma bytes_ok_store64 m a v : bytes_ok m -> bytes_ok (Mem.store64 m a v).
Proof. apply bytes_ok_store_bytes, encode_bytes. Qed.

Lemma decode_range bs :
  Forall (fun b => 0 <= b < 256) bs ->
  0 <= Mem.decode bs < 256 ^ Z.of_nat (length bs).
Proof.
  induction 1 as [|b rest Hb _ IH].
  - simpl. lia.
  - cbn [Mem.decode length]. rewrite Nat2Z.inj_succ, Z.pow_succ_r by lia. lia.
Qed.

Lemma load_bytes_ok m n : forall a,
  bytes_ok m -> Forall (fun b => 0 <= b < 256) (Mem.load_bytes m a n).
Proof.
  induction n as [|k IH]; intros a Hm; cbn [Mem.load_bytes]; constructor.
  - apply Hm.
  - apply IH, Hm.
Qed.

Lemma load64_range m a : bytes_ok m -> 0 <= Mem.load64 m a < 2 ^ 64.
Proof.
  intros Hm. unfold Mem.load64.
  pose proof (decode_range _ (load_bytes_ok m 8 a Hm)) as H.
  rewrite length_load_bytes in H. exact H.
Qed.

Lemma size_bits_div w : Z.land w (Z.lnot state_bits) = 8 * (w / 8).
Proof.
  change 8 with (2 ^ 3) at 1 2. rewrite <- Z.shiftr_div_pow2 by lia.
  rewrite Z.mul_comm, <- Z.shiftl_mul_pow2 by lia.
  apply Z.bits_inj'. intros n Hn.
  rewrite Z.land_spec, Z.lnot_spec, testbit_state_bits by exact Hn.
  destruct (n <? 3) eqn:E; cbn [negb].
  - rewrite andb_false_r. symmetry. apply Z.shiftl_spec_low. lia.
  - rewrite andb_true_r, Z.shiftl_spec, Z.shiftr_spec by lia.
    f_equal. lia.
Qed.

Lemma size_bits_range w :
  0 <= w < 2 ^ 64 -> 0 <= Z.land w (Z.lnot state_bits) < 2 ^ 64.
Proof.
  intros H. rewrite size_bits_div.
  pose proof (Z.mul_div_le w 8 ltac:(lia)).
  pose proof (Z.div_pos w 8 ltac:(lia) ltac:(lia)). lia.
Qed.

(** ** Computations that keep the bytes well formed *)

Lemma keeps_ret P {A} (a : A) : keeps P (ret a).
Proof. intros s b s' HP H. inversion H; subst. exact HP. Qed.

Lemma keeps_bind P {A B} (c : M A) (k : A -> M B) :
  keeps P c -> (forall a, keeps P (k a)) -> keeps P (bind c k).
Proof.
  intros Hc Hk s b s' HP H. apply bind_ret_inv in H as (a & s1 & H1 & H2).
  exact (Hk a _ _ _ (Hc _ _ _ HP H1) H2).
Qed.

Lemma keeps_load P a : keeps P (load a).
Proof.
  intros s v s' HP H. unfold load in H.
  destruct (mapped s a 8); inversion H; subst. exact HP.
Qed.

Lemma keeps_get_state P : keeps P get_state.
Proof. intros s v s' HP H. inversion H; subst. exact HP. Qed.

Lemma keeps_out_of_fuel P {A} : keeps P (@out_of_fuel A).
Proof. intros s v s' HP H. discriminate H. Qed.

Lemma mem_ok_store a v : keeps mem_ok (store a v).
Proof.
  intros s u s' HP H. unfold store in H.
  destruct (mapped s a 8); inversion H; subst.
  unfold mem_ok. cbn [mem set_mem]. apply bytes_ok_store64. exact HP.
Qed.

Lemma mem_ok_modify f : (forall s, mem (f s) = mem s) -> keeps mem_ok (modify f).
Proof.
  intros Hf s u s' HP H. inversion H; subst. unfold mem_ok. rewrite Hf. exact HP.
Qed.

Lemma mem_ok_sbrk n : keeps mem_ok (sbrk n).
Proof. intros s u s' HP H. inversion H; subst. exact HP. Qed.

Ltac mem_ok_step :=
  first
    [ apply keeps_ret | apply keeps_load | apply mem_ok_store
    | apply keeps_get_state | apply keeps_out_of_fuel | apply mem_ok_sbrk
    | apply mem_ok_modify; intros ?; reflexivity
    | apply keeps_bind; [|intros ?]
    | match goal with
      | |- keeps _ (if ?b then _ else _) => destruct b
      | |- keeps _ (let '(_, _) := ?p in _) => destruct p
      end
    | assumption ].

Ltac solve_mem_ok :=
  unfold set_block_state, set_block_size, get_block_state, get_block_size,
    get_right_header, get_left_header, load_left_size, store_left_size,
    load_next, store_next, load_prev, store_prev, initialize_fencepost;
  repeat mem_ok_step.

Lemma mem_ok_first_fit fuel : forall hdr size sent,
  keeps mem_ok (first_fit fuel hdr size sent).
Proof.
  induction fuel as [|k IH]; intros; cbn [first_fit]; solve_mem_ok. apply IH.
Qed.

Lemma mem_ok_search fuel : forall i size, keeps mem_ok (search fuel i size).
Proof.
  induction fuel as [|k IH]; intros; cbn [search]; unfold unlink_chosen;
    solve_mem_ok; first [apply mem_ok_first_fit | apply IH].
Qed.

Lemma mem_ok_grow : keeps mem_ok grow.
Proof.
  unfold grow, allocate_chunk, insert_fenceposts. solve_mem_ok.
Qed.

(** ** The size of a block handed out *)

Lemma load_inv s a v s' :
  load a s = Ret v s' ->
  mapped s a 8 = true /\ v = Mem.load64 (mem s) a /\ s' = s.
Proof.
  unfold load. destruct (mapped s a 8); [|discriminate].
  intros H. inversion H. repeat split.
Qed.

Lemma store_inv s a v s' :
  store a v s = Ret tt s' ->
  mapped s a 8 = true /\ s' = set_mem (Mem.store64 (mem s) a v) s.
Proof.
  unfold store. destruct (mapped s a 8); [|discriminate].
  intros H. inversion H. repeat split.
Qed.

Lemma get_block_size_inv s h v s' :
  get_block_size h s = Ret v s' ->
  mapped s h 8 = true /\
  v = Z.land (Mem.load64 (mem s) h) (Z.lnot state_bits) /\ s' = s.
Proof.
  unfold get_block_size. intros H.
  apply bind_ret_inv in H as (w & s1 & H1 & H2).
  apply load_inv in H1 as (Hm & -> & ->). inversion H2; subst. repeat split.
  exact Hm.
Qed.

Lemma set_block_size_inv s h size s' :
  set_block_size h size s = Ret tt s' ->
  mapped s h 8 = true /\
  s' = set_mem (Mem.store64 (mem s) h
         (Z.lor (Z.land size (Z.lnot state_bits))
                (Z.land (Mem.load64 (mem s) h) state_bits))) s.
Proof.
  intros H. destruct (mapped s h 8) eqn:E.
  - rewrite set_block_size_mapped in H by exact E. inversion H. now split.
  - unfold set_block_size, bind, load in H. rewrite E in H. discriminate H.
Qed.

Lemma size_bits_idem w :
  Z.land (Z.land w (Z.lnot state_bits)) (Z.lnot state_bits)
  = Z.land w (Z.lnot state_bits).
Proof. rewrite <- Z.land_assoc, Z.land_diag. reflexivity. Qed.

Lemma u64_u64 x : Word.u64 (Word.u64 x) = Word.u64 x.
Proof. apply u64_small, u64_range. Qed.

(** The last steps of [allocate_object]: the size the header of [hdr']
    holds before them is the size it holds after them, the store into the
    right neighbour's [left_size] either missing the header's word or
    writing that very size. *)
Lemma carve_tail hdr' s2 p s' :
  (right <- get_right_header hdr' ;;
   sz <- get_block_size hdr' ;;
   store_left_size right sz ;;;
   set_block_state hdr' ALLOCATED ;;;
   ret (Word.u64 (hdr' + ALLOC_HEADER_SIZE))) s2 = Ret p s' ->
  p = Word.u64 (hdr' + ALLOC_HEADER_SIZE) /\
  mapped s' hdr' 8 = true /\
  get_block_size hdr' s'
  = Ret (Word.u64 (Z.land (Mem.load64 (mem s2) hdr') (Z.lnot state_bits))) s'.
Proof.
  intros H.
  apply bind_ret_inv in H as (right & s3 & Hr & H).
  unfold get_right_header in Hr.
  apply bind_ret_inv in Hr as (sz0 & s3' & Hsz0 & Hr).
  apply get_block_size_inv in Hsz0 as (Hm0 & -> & ->).
  inversion Hr; subst right s3; clear Hr.
  apply bind_ret_inv in H as (sz & s4 & Hsz & H).
  apply get_block_size_inv in Hsz as (_ & -> & ->).
  apply bind_ret_inv in H as ([] & s5 & Hst & H).
  unfold store_left_size in Hst. apply store_inv in Hst as (Hm5 & ->).
  apply bind_ret_inv in H as ([] & s6 & Hset & H).
  inversion H; subst p s6; clear H.
  apply set_block_state_inv in Hset as (Hm6 & ->).
  split; [reflexivity|]. split; [exact Hm6|].
  rewrite get_block_size_mapped by exact Hm6.
  apply (f_equal (fun v => Ret v _)). cbn [mem set_mem].
  rewrite load64_store64_same, size_of_u64, size_of_word.
  set (sz0 := Z.land (Mem.load64 (mem s2) hdr') (Z.lnot state_bits)).
  set (A := get_header_from_offset hdr' sz0 + off_left_size).
  destruct (Z.eq_dec A hdr') as [E|E].
  - rewrite E, load64_store64_same, size_of_u64. unfold sz0.
    rewrite size_bits_idem. apply u64_u64.
  - rewrite load64_store64_other; [reflexivity|].
    assert (E8 : sz0 = 8 * (Mem.load64 (mem s2) hdr' / 8)) by apply size_bits_div.
    unfold A, get_header_from_offset, off_left_size, Word.u64, Word.modulus64 in *.
    rewrite Z.mod_eq in * by lia.
    set (c := (hdr' + sz0) / 2 ^ 64) in *.
    set (q := Mem.load64 (mem s2) hdr' / 8) in *. lia.
Qed.

Lemma no_split_means_fit bsz size :
  0 <= bsz < 2 ^ 64 -> 0 <= size < 2 ^ 31 ->
  (Word.u64 (Word.to_int (Word.u64 (bsz - Word.u64 size))) >=? sizeof_header) = false ->
  size <= bsz.
Proof.
  intros Hb Hs H. rewrite (u64_small size) in H by lia.
  destruct (Z_lt_le_dec bsz size) as [L|L]; [exfalso|exact L].
  unfold sizeof_header in H.
  assert (E1 : Word.u64 (bsz - size) = 2 ^ 64 + (bsz - size)).
  { unfold Word.u64, Word.modulus64. symmetry.
    apply Z.mod_unique_pos with (q := -1); lia. }
  rewrite E1 in H.
  assert (E2 : Word.to_int (2 ^ 64 + (bsz - size)) = bsz - size).
  { unfold Word.to_int, Word.modulus32.
    rewrite <- (Z.mod_unique_pos _ (2 ^ 32) (2 ^ 32) (bsz - size + 2 ^ 31)); lia. }
  rewrite E2 in H.
  assert (E3 : Word.u64 (bsz - size) = 2 ^ 64 + (bsz - size)) by exact E1.
  rewrite E3 in H. lia.
Qed.

Lemma carve_size hdr oldNext oldPrev size s p s' :
  mem_ok s -> sizeof_header <= size < 2 ^ 31 -> size mod 8 = 0 ->
  carve hdr oldNext oldPrev size s = Ret p s' ->
  address_space s' ->
  exists sz, get_block_size (ptr_to_header p) s' = Ret sz s' /\ size <= sz.
Proof.
  intros Hok Hsize Hal H Hsp. unfold carve in H.
  apply bind_ret_inv in H as (bsz & s1 & Hb & H).
  apply get_block_size_inv in Hb as (Hm & -> & ->).
  apply bind_ret_inv in H as (hdr' & s2 & Hif & H).
  apply carve_tail in H as (-> & Hm' & Hsz).
  assert (Hr := Hm'). apply mapped_in_address_space in Hr; [|exact Hsp|lia].
  rewrite ptr_of_header by lia.
  eexists. split; [exact Hsz|].
  destruct (_ >=? sizeof_header) eqn:Esplit in Hif.
  - apply bind_ret_inv in Hif as ([] & t1 & _ & Hif).
    apply bind_ret_inv in Hif as ([] & t2 & _ & Hif).
    apply bind_ret_inv in Hif as ([] & t3 & _ & Hif).
    apply bind_ret_inv in Hif as ([] & t4 & Hset & Hif).
    apply bind_ret_inv in Hif as ([] & t5 & Hst & Hif).
    inversion Hif; subst hdr' t5; clear Hif.
    apply set_block_size_inv in Hset as (_ & ->).
    unfold store_left_size in Hst. apply store_inv in Hst as (_ & ->).
    cbn [mem set_mem].
    rewrite load64_store64_other by (unfold off_left_size; lia).
    rewrite load64_store64_same, size_of_u64, size_of_word, u64_u64.
    rewrite (u64_small size) by (unfold sizeof_header in Hsize; lia).
    rewrite (size_aligned size Hal).
    rewrite u64_small by (unfold sizeof_header in Hsize; lia). lia.
  - inversion Hif; subst hdr' s2; clear Hif.
    pose proof (size_bits_range _ (load64_range (mem s) hdr Hok)) as Hrange.
    rewrite u64_small by exact Hrange.
    apply no_split_means_fit; [exact Hrange|unfold sizeof_header in Hsize; lia|exact Esplit].
Qed.

Lemma allocate_object_size fuel : forall raw s p s',
  mem_ok s -> 0 < raw <= 2 ^ 31 - 24 ->
  allocate_object fuel raw s = Ret p s' ->
  address_space s' ->
  exists sz, get_block_size (ptr_to_header p) s' = Ret sz s' /\
             raw + ALLOC_HEADER_SIZE <= sz.
Proof.
  induction fuel as [|f IH]; intros raw s p s' Hok Hraw H Hsp; [discriminate H|].
  cbn [allocate_object] in H.
  destruct (raw <=? 0) eqn:E0; [lia|].
  pose proof (block_size_of_rounds raw Hraw) as Hround. cbv zeta in Hround.
  set (asked := if raw <=? 8 then 16 else raw) in *.
  assert (Hasked : raw <= asked /\ 0 < asked <= 2 ^ 31 - 24)
    by (unfold asked; destruct (raw <=? 8) eqn:E8; lia).
  apply bind_ret_inv in H as ([hdr [oldNext oldPrev]] & s1 & Hs & H).
  pose proof (mem_ok_search _ _ _ _ _ _ Hok Hs) as Hok1.
  destruct (hdr =? NULL).
  - apply bind_ret_inv in H as ([] & s2 & Hg & H).
    pose proof (mem_ok_grow _ _ _ Hok1 Hg) as Hok2.
    destruct (IH _ _ _ _ Hok2 (proj2 Hasked) H Hsp) as (sz & Hsz & Hle).
    exists sz. split; [exact Hsz|lia].
  - assert (Hb : sizeof_header <= block_size_of asked < 2 ^ 31).
    { unfold ALLOC_HEADER_SIZE in Hround. lia. }
    destruct (carve_size _ _ _ _ _ _ _ Hok1 Hb (proj1 Hround) H Hsp)
      as (sz & Hsz & Hle).
    exists sz. split; [exact Hsz|lia].
Qed.

(** X17.  The header of a block returned by [my_malloc] for a request of
    1 to 2^31 - 24 bytes records a size that covers the request and the
    header. *)
Theorem my_malloc_block_is_large_enough (fuel : nat) (raw : Z) (s s' : allocator) (p : Z) :
  mem_ok s -> 0 < raw <= 2 ^ 31 - 24 ->
  my_malloc fuel raw s = Ret p s' ->
  address_space s' ->
  exists sz, get_block_size (ptr_to_header p) s' = Ret sz s' /\
             raw + ALLOC_HEADER_SIZE <= sz.
Proof. exact (allocate_object_size fuel raw s p s'). Qed.

(** ** Reads in concrete states *)

Lemma load_at s a v :
  mapped s a 8 = true -> Mem.load64 (mem s) a = v -> load a s = Ret v s.
Proof. intros Hm <-. apply load_mapped. exact Hm. Qed.

Lemma get_block_size_at s h v :
  mapped s h 8 = true ->
  Z.land (Mem.load64 (mem s) h) (Z.lnot state_bits) = v ->
  get_block_size h s = Ret v s.
Proof. intros Hm <-. apply get_block_size_mapped. exact Hm. Qed.

Lemma get_block_state_at s h v :
  mapped s h 8 = true ->
  Z.land (Mem.load64 (mem s) h) state_bits = v ->
  get_block_state h s = Ret v s.
Proof. intros Hm <-. apply get_block_state_mapped. exact Hm. Qed.

Ltac read_at :=
  lazymatch goal with
  | |- get_block_size _ _ = _ => apply get_block_size_at
  | |- get_block_state _ _ = _ => apply get_block_state_at
  | |- load_next _ _ = _ => unfold load_next; apply load_at
  | |- load_prev _ _ = _ => unfold load_prev; apply load_at
  | |- load_left_size _ _ = _ => unfold load_left_size; apply load_at
  end;
  vm_compute; reflexivity.

Lemma mem_ok_init_sentinels n : forall i, keeps mem_ok (init_sentinels n i).
Proof.
  induction n as [|k IH]; intros; cbn [init_sentinels]; solve_mem_ok; try apply IH.
Qed.

Lemma mem_ok_init : keeps mem_ok init.
Proof.
  unfold init, allocate_chunk, insert_fenceposts, insert_os_chunk.
  solve_mem_ok; try apply mem_ok_init_sentinels.
Qed.

Lemma mem_ok_started sent brk0 s : started sent brk0 = Ret tt s -> mem_ok s.
Proof.
  unfold started. intros H.
  exact (mem_ok_init (loaded sent brk0) tt s bytes_ok_empty H).
Qed.

Lemma mem_ok_fresh_heap : mem_ok fresh_heap.
Proof.
  unfold fresh_heap, process.
  apply (mem_ok_started 4096 65536). apply returned_ret. vm_compute. reflexivity.
Qed.

Lemma address_space_checked s :
  (0 <=? sentinels s) && (sentinels s + sizeof_header * N_LISTS <=? 2 ^ 64) &&
  (0 <=? heap_start s) && (brk s <=? 2 ^ 64) = true ->
  address_space s.
Proof. unfold address_space. lia. Qed.

Lemma break_tracked_checked s :
  (0 <=? heap_start s) && (heap_start s + ALLOC_HEADER_SIZE <=? brk s) &&
  (lastFencePost s =? brk s - ALLOC_HEADER_SIZE) = true ->
  break_tracked s.
Proof. unfold break_tracked. lia. Qed.

Lemma Z_range_cases (P : Z -> Prop) (lo : Z) (n : nat) :
  (forall k, (k < n)%nat -> P (lo + Z.of_nat k)) ->
  forall j, lo <= j < lo + Z.of_nat n -> P j.
Proof.
  intros H j Hj. replace j with (lo + Z.of_nat (Z.to_nat (j - lo))) by lia.
  apply H. lia.
Qed.

(** ** Instances *)



Lemma left_of_right_neighbour_witness :
  get_left_header 69616 fresh_heap = Ret 65552 fresh_heap.
Proof.
  apply (left_of_right_neighbour 65552 fresh_heap 4064 69616).
  - lia.
  - read_at.
  - unfold get_right_header, bind.
    rewrite (get_block_size_at fresh_heap 65552 4064) by (vm_compute; reflexivity).
    reflexivity.
  - read_at.
Defined.

Lemma insert_os_chunk_bounded_witness :
  exists s',
    insert_os_chunk 69632 fresh_heap = Ret tt s' /\
    numOsChunks s' = 2 /\ osChunkList s' !! 1 = Some 69632.
Proof.
  assert (E : numOsChunks fresh_heap = 1) by (vm_compute; reflexivity).
  destruct (insert_os_chunk_bounded 69632 fresh_heap) as (s' & H1 & _ & H2 & _).
  - rewrite E. unfold MAX_OS_CHUNKS. lia.
  - exists s'. split; [exact H1|].
    rewrite E in H2. destruct H2 as (H2 & H3 & _); [unfold MAX_OS_CHUNKS; lia|].
    split; [exact H2 | exact H3].
Defined.


Lemma own_break_keeps_one_chunk_witness :
  numOsChunks
    (state_of (and_then (started 4096 65536)
       (fun _ => run plenty [Malloc 4040; Malloc 4040; Free 0; Malloc 16] []))) = 1 /\
  osChunkList
    (state_of (and_then (started 4096 65536)
       (fun _ => run plenty [Malloc 4040; Malloc 4040; Free 0; Malloc 16] []))) !! 0
  = Some 65536.
Proof.
  destruct (own_break_keeps_one_chunk 4096 65536 plenty
              [Malloc 4040; Malloc 4040; Free 0; Malloc 16] [65568; 69672; 69640]
              (state_of (and_then (started 4096 65536)
                 (fun _ => run plenty [Malloc 4040; Malloc 4040; Free 0; Malloc 16] []))))
    as (H1 & H2 & _).
  - lia.
  - unfold sizeof_header, N_LISTS. lia.
  - lia.
  - left. unfold sizeof_header, N_LISTS. lia.
  - reflexivity.
  - unfold ARENA_SIZE, plenty. cbn [length]. lia.
  - apply returned_ret. vm_compute. reflexivity.
  - split; [exact H1 | exact H2].
Defined.

Lemma my_free_ignores_null_and_fenceposts_witness :
  my_free 65552 fresh_heap = Ret tt fresh_heap.
Proof.
  apply my_free_ignores_null_and_fenceposts. right.
  unfold ptr_to_header. read_at.
Defined.

Lemma my_free_changes_memory_only_witness :
  brk (state_of (my_free 69600 one_block)) = brk one_block /\
  lastFencePost (state_of (my_free 69600 one_block)) = lastFencePost one_block /\
  numOsChunks (state_of (my_free 69600 one_block)) = numOsChunks one_block /\
  stdout (state_of (my_free 69600 one_block)) = stdout one_block.
Proof.
  destruct (my_free_changes_memory_only 69600 one_block
              (state_of (my_free 69600 one_block)))
    as (_ & _ & H3 & H4 & _ & _ & H7 & H8 & _).
  - apply returned_ret. vm_compute. reflexivity.
  - split; [exact H3|]. split; [exact H4|]. split; [exact H7 | exact H8].
Defined.

Lemma my_malloc_returns_allocated_block_witness :
  get_block_state (ptr_to_header 69600) (state_of (my_malloc plenty 16 fresh_heap))
  = Ret ALLOCATED (state_of (my_malloc plenty 16 fresh_heap)).
Proof.
  apply (my_malloc_returns_allocated_block plenty 16 fresh_heap).
  - apply returned_ret. vm_compute. reflexivity.
  - discriminate.
  - apply address_space_checked. vm_compute. reflexivity.
Defined.

Lemma my_malloc_keeps_registry_witness :
  numOsChunks (state_of (my_malloc plenty 4040 drained_heap)) = numOsChunks drained_heap /\
  break_tracked (state_of (my_malloc plenty 4040 drained_heap)) /\
  exists k, 0 <= k <= Z.of_nat plenty /\
    brk (state_of (my_malloc plenty 4040 drained_heap))
    = brk drained_heap + ARENA_SIZE * k.
Proof.
  destruct (my_malloc_keeps_registry plenty 4040 drained_heap
              (state_of (my_malloc plenty 4040 drained_heap)) 69672)
    as (H1 & _ & H3 & H4 & _).
  - apply break_tracked_checked. vm_compute. reflexivity.
  - assert (E : brk drained_heap = 69632) by (vm_compute; reflexivity).
    rewrite E. unfold ARENA_SIZE, plenty. lia.
  - apply returned_ret. vm_compute. reflexivity.
  - split; [exact H1|]. split; [exact H3 | exact H4].
Defined.

Lemma my_malloc_block_is_large_enough_witness :
  exists sz,
    get_block_size (ptr_to_header 69512) (state_of (my_malloc plenty 100 fresh_heap))
    = Ret sz (state_of (my_malloc plenty 100 fresh_heap)) /\
    100 + ALLOC_HEADER_SIZE <= sz.
Proof.
  apply (my_malloc_block_is_large_enough plenty 100 fresh_heap).
  - exact mem_ok_fresh_heap.
  - lia.
  - apply returned_ret. vm_compute. reflexivity.
  - apply address_space_checked. vm_compute. reflexivity.
Defined.

Lemma first_fit_takes_first_fitting_witness :
  first_fit plenty 68968 2896 (4096 + 32 * 58) two_in_catch_all
  = Ret 65552 two_in_catch_all.
Proof.
  apply (first_fit_takes_first_fitting plenty 2896 (4096 + 32 * 58)
           two_in_catch_all 68968 616 [(65552, 3384)]).
  - cbn [listed]. repeat split; try lia; read_at.
  - unfold plenty. cbn. lia.
Defined.

Lemma my_realloc_of_null_faults_witness :
  my_realloc plenty NULL 16 fresh_heap = Fault.
Proof.
  apply (my_realloc_of_null_faults plenty 16 fresh_heap
           (state_of (my_malloc plenty 16 fresh_heap)) 69600).
  - apply returned_ret. vm_compute. reflexivity.
  - discriminate.
  - vm_compute. reflexivity.
Defined.

Lemma search_skips_empty_classes_witness :
  search plenty 0 4056 drained_heap = Ret (NULL, (NULL, NULL)) drained_heap.
Proof.
  apply (search_skips_empty_classes plenty 4056 drained_heap 0).
  - unfold N_LISTS. lia.
  - unfold N_LISTS, plenty. lia.
  - apply (Z_range_cases
             (fun j => load_prev (sentinel drained_heap j) drained_heap
                       = Ret (sentinel drained_heap j) drained_heap) 0 59).
    intros k Hk.
    do 59 (destruct k as [|k]; [read_at|]). lia.
Defined.

Ltac ring_at :=
  split;
  [ repeat (constructor; [cbn [In]; intros E; intuition (vm_compute in *; discriminate)|]);
    constructor
  | intros k Hk;
    repeat (destruct k as [|k]; [split; read_at|]); cbn [length] in Hk; lia ].

Lemma verify_freelist_accepts_rings_witness :
  verify_freelist plenty fresh_heap = Ret true fresh_heap.
Proof.
  apply verify_freelist_accepts_rings. intros i Hi.
  do 58 (destruct i as [|i];
         [exists []; split; [ring_at | unfold plenty; cbn [length]; lia]|]).
  destruct i as [|i].
  - exists [65552]. split; [ring_at | unfold plenty; cbn [length]; lia].
  - exfalso. unfold N_LISTS in Hi. lia.
Defined.

(** ** Well-formed bytes along sessions *)








(** ** Reallocation *)






(** The source of the copy can contain the new block: the third of
    three blocks is 16 bytes long, and a reallocation to 500 bytes gets
    a block that starts 128 bytes behind it.  C leaves [memcpy]
    undefined there. *)
Lemma my_realloc_ranges_can_overlap :
  pointer_of plenty [Malloc 16; Malloc 600; Malloc 16; Free 1] 2 = 68952 /\
  returned (my_malloc plenty 500 two_in_catch_all) = Some 69080.
Proof. split; vm_compute; reflexivity. Qed.

(** ** Zeroed allocation *)

(** C10.  [my_calloc(2^61 + 2^29 + 1, 8)]: the product wraps to
    2^32 + 8, [allocate_object] keeps its low 32 bits and hands out a
    block of 24 bytes, and [memset] is asked for 2^32 + 8 bytes.  In the
    process as started the call faults; where the heap is mapped that
    far it returns, and the zeroes run over the right fencepost and
    everything behind it. *)
Theorem my_calloc_zeroes_past_its_block :
  ((2 ^ 61 + 2 ^ 29 + 1) * 8) mod 2 ^ 64 = 2 ^ 32 + 8 /\
  my_calloc plenty (2 ^ 61 + 2 ^ 29 + 1) 8 fresh_heap = Fault /\
  exists s1 s2,
    my_malloc plenty (2 ^ 32 + 8) roomy_heap = Ret 69608 s1 /\
    get_block_size (ptr_to_header 69608) s1 = Ret 24 s1 /\
    get_block_state 69616 s1 = Ret FENCEPOST s1 /\
    Mem.byte_at (mem s1) 69616 = 18 /\
    my_calloc plenty (2 ^ 61 + 2 ^ 29 + 1) 8 roomy_heap = Ret 69608 s2 /\
    (forall i, 0 <= i < 2 ^ 32 + 8 -> Mem.byte_at (mem s2) (69608 + i) = 0) /\
    Mem.byte_at (mem s2) 69616 = 0.
Proof.
  split; [reflexivity|]. split; [vm_compute; reflexivity|].
  destruct (my_calloc_run 63 (2 ^ 61 + 2 ^ 29 + 1) 8 roomy_heap
              (state_of (my_malloc plenty (2 ^ 32 + 8) roomy_heap)) 69608)
    as (s2 & H1 & H2 & _).
  - apply returned_ret. vm_compute. reflexivity.
  - right. vm_compute. reflexivity.
  - exists (state_of (my_malloc plenty (2 ^ 32 + 8) roomy_heap)), s2.
    split; [apply returned_ret; vm_compute; reflexivity|].
    split; [unfold ptr_to_header; read_at|].
    split; [read_at|].
    split; [vm_compute; reflexivity|].
    split; [exact H1|]. split; [exact H2|].
    apply (H2 8). split; [lia|]. vm_compute. reflexivity.
Qed.
